(** * mirror_mygithub: the paginated fetcher, the command runner and the
    repository reconciler

    A shallow embedding of [fetchApiContent], [parseRepo], [pipeWriter],
    [doExec] and [syncRepos] of the Go program, in its version with the
    pagination loop and the retry classification, and the properties of
    these functions that the specification states.  ([main], which loads the
    configuration and calls [syncRepos] twice, comes after them, from its
    call to [os.OpenFile] on.)

    Go strings are byte strings: they are [string] here, one [ascii] per
    byte.  Go [int] values that can go negative ([len(s)-1], exit statuses,
    durations) are [Z].  The program talks to an HTTP server, a file system
    and the [git] executable: these are the fields of the class [System],
    functions of a world state that the program threads, and every call the
    program makes is recorded as an [event].  An [lg.Fatalf] and a panic end
    a computation with their own outcome.  Two things the program does are
    left out, as nothing reads them back: the deferred [rsp.Body.Close()]
    and the copy of a command's output to the console. *)

From Stdlib Require Import String Ascii List ZArith Lia Bool.
Import ListNotations.
Open Scope string_scope.

Set Implicit Arguments.

(** ** The functions of Go's [strings] package that the program uses *)

Module Strings.

(** [strings.Contains(s, substr)]. *)
Fixpoint Contains (s substr : string) : bool :=
  match s with
  | EmptyString => String.prefix substr EmptyString
  | String _ s' => String.prefix substr s || Contains s' substr
  end.

(** The loop of [strings.Split(s, sep)] for a separator that is not
    empty: [skip] counts the bytes of a separator still to be passed over,
    [cur] is the piece being read. *)
Fixpoint split_from (sep s : string) (skip : nat) (cur : string) : list string :=
  match s with
  | EmptyString => [cur]
  | String c s' =>
      match skip with
      | S k => split_from sep s' k cur
      | O =>
          if String.prefix sep s
          then cur :: split_from sep s' (String.length sep - 1) EmptyString
          else split_from sep s' 0 (cur ++ String c EmptyString)
      end
  end.

(** [strings.Split(s, sep)]; the program only calls it with the one-byte
    separators [","] and [";"]. *)
Definition Split (s sep : string) : list string := split_from sep s 0 EmptyString.

(** The slice expression [s[lo:hi]]: Go panics unless
    [0 <= lo <= hi <= len(s)]. *)
Definition slice (s : string) (lo hi : Z) : option string :=
  if ((0 <=? lo) && (lo <=? hi) && (hi <=? Z.of_nat (String.length s)))%Z
  then Some (String.substring (Z.to_nat lo) (Z.to_nat (hi - lo)) s)
  else None.

(** [len(s)] as a Go [int]. *)
Definition len (s : string) : Z := Z.of_nat (String.length s).

End Strings.

(** ** Data model *)

(** [type Repo struct]: the two fields decoded from a listing page. *)
Record Repo : Type := mkRepo { FullName : string; SSHUrl : string }.

(** [type Config struct]. *)
Record Config : Type := mkConfig { User : string; Token : string; RepoRootDir : string }.

(** An [error] of the [os] package; [os.Stat] can fail for other reasons
    than a missing path. *)
Inductive os_error : Type :=
| ErrNotExist
| ErrPermission
| ErrOther (msg : string).

(** [http.Header], and [Header.Get]: the first value stored for the key, the
    empty string when the key is absent. *)
Definition http_Header : Type := list (string * string).

Fixpoint Header_Get (h : http_Header) (key : string) : string :=
  match h with
  | [] => EmptyString
  | (k, v) :: h' => if String.eqb k key then v else Header_Get h' key
  end.

(** [http.Response], as far as the program reads it.  [Body] is what
    [ioutil.ReadAll(rsp.Body)] returns: [None] is a read error. *)
Record Response : Type := mkResponse {
  StatusCode : Z;
  Status : string;
  Header : http_Header;
  Body : option string
}.

(** [syscall.WaitStatus] and its [ExitStatus()]: the exit code of a process
    that exited, [-1] for one that a signal ended. *)
Inductive WaitStatus : Type :=
| Exited (code : Z)
| Signaled (sig : Z).

Definition ExitStatus (status : WaitStatus) : Z :=
  match status with
  | Exited code => code
  | Signaled _ => (-1)%Z
  end.

(** The error of [cmd.Run()]: an [*exec.ExitError] whose [Sys()] is a
    [syscall.WaitStatus] on Unix ([None] where it is not), or any other
    error (the executable was not found, the process could not start). *)
Inductive run_error : Type :=
| ExitError (sys : option WaitStatus)
| SpawnError (msg : string).

(** What one [cmd.Run()] produced: the chunks written to the command's
    standard output and standard error, and the error returned. *)
Record RunResult : Type := mkRunResult {
  stdout_writes : list string;
  stderr_writes : list string;
  run_err : option run_error
}.

(** [pipeWriter]: [Write] appends the chunk to the buffer [c] (and mirrors
    it, trimmed, on the console, which nothing reads back); [String]
    returns the buffer. *)
Record pipeWriter : Type := mkPipeWriter { c : string }.

Definition pipeWriter_Write (p : pipeWriter) (data : string) : pipeWriter :=
  {| c := c p ++ data |}.

Definition pipeWriter_String (p : pipeWriter) : string := c p.

Definition write_all (p : pipeWriter) (chunks : list string) : pipeWriter :=
  fold_left pipeWriter_Write chunks p.

(** ** The outside world *)

(** Every call that leaves the process.  [Log] carries the format string of
    the [lg.Printf] (or [lg.Fatalf]) that wrote the line. *)
Inductive event : Type :=
| Log (format : string)
| HttpGet (url user password : string)
| Sleep (d : Z)
| Stat (name : string)
| MkdirAll (path : string) (perm : Z)
| Chdir (dir : string)
| Run (name : string) (arg : list string).

(** The system under the program, over a world state [W].  The calls that
    resolve paths or spawn a process take the working directory of the
    process as their second argument. *)
Class System (W : Type) : Type := {
  (** [http.NewRequest("GET", url, nil)]: the error, if the URL does not parse *)
  http_NewRequest : string -> option string;
  (** [client.Do(req)] with the basic-auth pair set on the request *)
  client_Do : W -> string -> string -> string -> W * (string + Response);
  (** [json.Unmarshal(content, &repos)]: [None] is a decoding error *)
  json_Unmarshal : string -> option (list Repo);
  (** [os.Stat(name)]: only the error is looked at *)
  os_Stat : W -> string -> string -> W * option os_error;
  (** [os.MkdirAll(path, perm)] *)
  os_MkdirAll : W -> string -> string -> Z -> W * option os_error;
  (** [os.Chdir(dir)]: the error is dropped by the program, the result is
      the working directory afterwards *)
  os_Chdir : W -> string -> string -> W * string;
  (** [exec.Command(name, arg...).Run()] in a working directory *)
  cmd_Run : W -> string -> string -> list string -> W * RunResult;
  (** [time.Sleep(d)] *)
  time_Sleep : W -> Z -> W
}.

(** [time.Duration] counts nanoseconds. *)
Definition Millisecond : Z := 1000000%Z.
Definition Second : Z := (1000 * Millisecond)%Z.

(** ** Computations of the process *)

(** A run-time panic of the program, by the place that raises it. *)
Inductive panic : Type :=
| PanicNewRequest
| PanicReadAll
| PanicUnmarshal
| PanicSliceBounds
| PanicIndexRange.

(** How a computation ends: it returns; [lg.Fatalf] ends the process; a
    panic ends it; or the fuel given to an unbounded loop ran out. *)
Inductive outcome (A : Type) : Type :=
| Returns (a : A)
| Fatal (format : string)
| Panics (p : panic)
| OutOfFuel.

Arguments Fatal {A} format.
Arguments Panics {A} p.
Arguments OutOfFuel {A}.

Section Process.

Variable W : Type.

(** The state of the process: the world and the working directory. *)
Record Proc : Type := mkProc { world : W; cwd : string }.

(** The result of a computation: its outcome, the state it leaves, the
    events it emitted, oldest first, and the state of the process after
    each of these events (where a process killed from outside can stop). *)
Record result (A : Type) : Type := mkResult {
  out : outcome A;
  final : Proc;
  events : list event;
  states : list Proc
}.

Definition M (A : Type) : Type := Proc -> result A.

Definition ret {A} (a : A) : M A :=
  fun p => {| out := Returns a; final := p; events := []; states := [] |}.

Definition bind {A B} (m : M A) (k : A -> M B) : M B :=
  fun p =>
    let r := m p in
    match out r with
    | Returns a =>
        let r' := k a (final r) in
        {| out := out r'; final := final r';
           events := (events r ++ events r')%list;
           states := (states r ++ states r')%list |}
    | Fatal f =>
        {| out := Fatal f; final := final r; events := events r; states := states r |}
    | Panics e =>
        {| out := Panics e; final := final r; events := events r; states := states r |}
    | OutOfFuel =>
        {| out := OutOfFuel; final := final r; events := events r; states := states r |}
    end.

Definition emit (e : event) : M unit :=
  fun p => {| out := Returns tt; final := p; events := [e]; states := [p] |}.

(** One call to the system: its answer, the state after it, its event. *)
Definition step {A} (a : A) (p' : Proc) (e : event) : result A :=
  {| out := Returns a; final := p'; events := [e]; states := [p'] |}.

Definition stop {A} (o : outcome A) : M A :=
  fun p => {| out := o; final := p; events := []; states := [] |}.

(** A result with one more event in front. *)
Definition after {A} (e : event) (p' : Proc) (r : result A) : result A :=
  {| out := out r; final := final r;
     events := e :: events r; states := p' :: states r |}.

End Process.

Notation "x <- m ;; k" := (bind m (fun x => k))
  (at level 61, m at next level, right associativity).
Notation "m ;;; k" := (bind m (fun _ => k))
  (at level 61, right associativity).

(** [fmt.Sprintf("%v/%v", rootDir, repo.FullName)]: the local directory of
    a record under a root. *)
Definition localDir (rootDir : string) (repo : Repo) : string :=
  rootDir ++ "/" ++ FullName repo.

Section Program.

Context {W : Type} `{System W}.

(** The global [cfg]: the credentials set on every request. *)
Variable cfg : Config.

Definition github_api : string := "https://api.github.com".
Definition starred_uri : string := "/user/starred".
Definition user_repos_uri : string := "/user/repos".

(** *** The primitives *)

Definition lg_Printf (format : string) : M W unit := emit (Log format).

(** [lg.Fatalf]: the line is written, then the process exits. *)
Definition lg_Fatalf {A} (format : string) : M W A :=
  emit (Log format) ;;; stop (Fatal format).

Definition do_panic {A} (e : panic) : M W A := stop (Panics e).

Definition do_request (url : string) : M W (string + Response) :=
  fun p =>
    let '(w, r) := client_Do (world p) url (User cfg) (Token cfg) in
    step r {| world := w; cwd := cwd p |} (HttpGet url (User cfg) (Token cfg)).

Definition do_sleep (d : Z) : M W unit :=
  fun p =>
    step tt {| world := time_Sleep (world p) d; cwd := cwd p |} (Sleep d).

Definition do_stat (name : string) : M W (option os_error) :=
  fun p =>
    let '(w, e) := os_Stat (world p) (cwd p) name in
    step e {| world := w; cwd := cwd p |} (Stat name).

Definition do_mkdirall (path : string) (perm : Z) : M W (option os_error) :=
  fun p =>
    let '(w, e) := os_MkdirAll (world p) (cwd p) path perm in
    step e {| world := w; cwd := cwd p |} (MkdirAll path perm).

Definition do_chdir (dir : string) : M W unit :=
  fun p =>
    let '(w, d) := os_Chdir (world p) (cwd p) dir in
    step tt {| world := w; cwd := d |} (Chdir dir).

Definition do_run (name : string) (arg : list string) : M W RunResult :=
  fun p =>
    let '(w, r) := cmd_Run (world p) (cwd p) name arg in
    step r {| world := w; cwd := cwd p |} (Run name arg).

(** *** [parseRepo] and [fetchApiContent] *)

(** [parseRepo]: a decoding error panics. *)
Definition parseRepo (content : string) : M W (list Repo) :=
  match json_Unmarshal content with
  | Some repos => ret repos
  | None => do_panic PanicUnmarshal
  end.

(** [for _, r := range parseRepo(content) { reps = append(reps, r) }] *)
Definition append_all (reps page : list Repo) : list Repo :=
  fold_left (fun acc r => (acc ++ [r])%list) page reps.

(** [strings.Split(strings.Split(rsp.Header.Get("Link"), ",")[0], ";")] *)
Definition link_of (rsp : Response) : option (list string) :=
  match Strings.Split (Header_Get (Header rsp) "Link") "," with
  | first :: _ => Some (Strings.Split first ";")
  | [] => None
  end.

(** How one turn of the [for] loop ends when it does not end the
    process. *)
Inductive turn : Type :=
| Continue (api : string) (reps : list Repo)
| Break (reps : list Repo).

(** The body of the loop of [fetchApiContent], statement by statement. *)
Definition fetchPage (uri api : string) (reps : list Repo) : M W turn :=
  lg_Printf "fetch api: %s" ;;;
  match http_NewRequest api with
  | Some _ => do_panic PanicNewRequest
  | None =>
      r <- do_request api ;;
      match r with
      | inl _ => lg_Fatalf "fetch api %v response error %v"
      | inr rsp =>
          if negb (StatusCode rsp =? 200)%Z
          then lg_Fatalf "fetch api %v response not 200 (status: %v, msg: %v)"
          else
            match link_of rsp with
            | None => do_panic PanicIndexRange
            | Some link =>
                match link with
                | [] => do_panic PanicIndexRange
                | link0 :: _ =>
                    match Strings.slice link0 1 (Strings.len link0 - 1)%Z with
                    | None => do_panic PanicSliceBounds
                    | Some api' =>
                        match Body rsp with
                        | None => do_panic PanicReadAll
                        | Some content =>
                            page <- parseRepo content ;;
                            let reps' := append_all reps page in
                            match nth_error link 1 with
                            | None => do_panic PanicIndexRange
                            | Some link1 =>
                                if negb (Strings.Contains link1 "next")
                                then ret (Break reps')
                                else
                                  lg_Printf "ratelimit 30/min, sleep for a while" ;;;
                                  do_sleep (Second * 2)%Z ;;;
                                  ret (Continue api' reps')
                            end
                        end
                    end
                end
            end
      end
  end.

(** The [for] loop: it has no bound in the program, so it takes fuel, one
    unit per turn. *)
Fixpoint fetchLoop (fuel : nat) (uri api : string) (reps : list Repo) : M W (list Repo) :=
  match fuel with
  | O => stop OutOfFuel
  | S fuel' =>
      t <- fetchPage uri api reps ;;
      match t with
      | Break reps' => ret reps'
      | Continue api' reps' => fetchLoop fuel' uri api' reps'
      end
  end.

Definition fetchApiContent (fuel : nat) (uri : string) : M W (list Repo) :=
  fetchLoop fuel uri (github_api ++ uri) [].

(** *** [doExec] *)

(** [stderr.String()] after the run: the buffer of a fresh [pipeWriter]
    that received every chunk of the command's standard error. *)
Definition captured_stderr (r : RunResult) : string :=
  pipeWriter_String (write_all {| c := EmptyString |} (stderr_writes r)).

(** The two type assertions on [err] and the test
    [status.ExitStatus() == 1]: the error is an exit error, its [Sys()] is
    a wait status, and the exit status is 1. *)
Definition exit_status_is_1 (err : run_error) : bool :=
  match err with
  | ExitError (Some status) => (ExitStatus status =? 1)%Z
  | ExitError None => false
  | SpawnError _ => false
  end.

(** [for i := 0; i < 20; i++]: [remaining] is [20 - i]. *)
Fixpoint doExec_loop (remaining : nat) (name : string) (arg : list string) : M W unit :=
  match remaining with
  | O => ret tt
  | S remaining' =>
      r <- do_run name arg ;;
      match run_err r with
      | Some err =>
          if Strings.Contains (captured_stderr r) "DMCA takedown"
          then ret tt
          else if exit_status_is_1 err
          then ret tt
          else
            lg_Printf "[error] cmd run error cmd:%v arg:%v, error: %v" ;;;
            lg_Printf "[retry] try rerun cmd: %v" ;;;
            do_sleep (Millisecond * 200)%Z ;;;
            doExec_loop remaining' name arg
      | None => ret tt
      end
  end.

Definition doExec (name : string) (arg : list string) : M W unit :=
  doExec_loop 20 name arg.

(** *** [syncRepos] *)

(** The permission bits [0700]. *)
Definition perm_0700 : Z := (7 * 64)%Z.

(** The body of the loop over the records: the reconciliation of one
    repository under [rootDir]. *)
Definition syncRepo (rootDir : string) (repo : Repo) : M W unit :=
  lg_Printf "sync repo: %v, git url: %v" ;;;
  let dir := localDir rootDir repo in
  err <- do_stat dir ;;
  match err with
  | Some _ =>
      lg_Printf "local git repo dir not found, try create: %v" ;;;
      err' <- do_mkdirall dir perm_0700 ;;
      match err' with
      | Some _ => lg_Fatalf "create local repo dir error: %v"
      | None =>
          lg_Printf "git clone repo: %v" ;;;
          doExec "git" ["clone"; SSHUrl repo; dir]
      end
  | None =>
      do_chdir dir ;;;
      doExec "git" ["reset"; "--hard"] ;;;
      doExec "git" ["pull"; "--rebase"]
  end.

(** [for _, repo := range repos]. *)
Fixpoint for_each (repos : list Repo) (body : Repo -> M W unit) : M W unit :=
  match repos with
  | [] => ret tt
  | repo :: repos' => body repo ;;; for_each repos' body
  end.

Definition syncRepos (fuel : nat) (rootDir api_uri : string) : M W unit :=
  lg_Printf "sync repos.... rootDir:%s, api_uri: %s" ;;;
  repos <- fetchApiContent fuel api_uri ;;
  lg_Printf "api_uri: %s, repo count: %v" ;;;
  for_each repos (syncRepo rootDir).

End Program.

(** ** Reading a trace *)

Module Trace.

(** The URLs requested, in order. *)
Fixpoint requests (t : list event) : list string :=
  match t with
  | [] => []
  | HttpGet url _ _ :: t' => url :: requests t'
  | _ :: t' => requests t'
  end.

(** The pauses, in order. *)
Fixpoint sleeps (t : list event) : list Z :=
  match t with
  | [] => []
  | Sleep d :: t' => d :: sleeps t'
  | _ :: t' => sleeps t'
  end.

(** The requests and the pauses, in order. *)
Fixpoint wire (t : list event) : list event :=
  match t with
  | [] => []
  | HttpGet url u k :: t' => HttpGet url u k :: wire t'
  | Sleep d :: t' => Sleep d :: wire t'
  | _ :: t' => wire t'
  end.

(** The commands spawned, in order. *)
Fixpoint runs (t : list event) : list (string * list string) :=
  match t with
  | [] => []
  | Run name arg :: t' => (name, arg) :: runs t'
  | _ :: t' => runs t'
  end.

(** The file-system calls and the commands, in order: the trace without
    its log lines and pauses. *)
Fixpoint ops (t : list event) : list event :=
  match t with
  | [] => []
  | Log _ :: t' => ops t'
  | Sleep _ :: t' => ops t'
  | e :: t' => e :: ops t'
  end.


End Trace.

(** ** Two machines to run the program on *)

Module Sim.

(** A decoder for the machines below: the bodies it knows, with the
    records each decodes to; any other body is a decoding error. *)
Fixpoint decode (table : list (string * list Repo)) (content : string)
  : option (list Repo) :=
  match table with
  | [] => None
  | (body, repos) :: table' =>
      if String.eqb body content then Some repos else decode table' content
  end.

(** A machine without state: every call is answered by a fixed function
    of its arguments, every URL parses, [os.Chdir] succeeds. *)
Definition scripted
    (http : string -> string + Response)
    (table : list (string * list Repo))
    (stat mkdir : string -> option os_error)
    (run : string -> list string -> RunResult) : System unit :=
  {| http_NewRequest := fun _ => None;
     client_Do := fun w url _ _ => (w, http url);
     json_Unmarshal := decode table;
     os_Stat := fun w _ name => (w, stat name);
     os_MkdirAll := fun w _ path _ => (w, mkdir path);
     os_Chdir := fun w _ dir => (w, dir);
     cmd_Run := fun w _ name arg => (w, run name arg);
     time_Sleep := fun w _ => w |}.

(** A machine with a disk: the directories that exist and, among them,
    those that hold a working copy. *)
Record Disk : Type := mkDisk { dirs : list string; clones : list string }.

Definition mem (x : string) (l : list string) : bool :=
  existsb (String.eqb x) l.

Definition succeeded : RunResult :=
  {| stdout_writes := []; stderr_writes := []; run_err := None |}.

Definition failed (code : Z) (message : string) : RunResult :=
  {| stdout_writes := [];
     stderr_writes := [message];
     run_err := Some (ExitError (Some (Exited code))) |}.

(** The [git] of the disk machine: [clone] fills its destination;
    [reset] and [pull] succeed in a working copy and exit with 128
    anywhere else. *)
Definition git (d : Disk) (wd : string) (arg : list string) : Disk * RunResult :=
  match arg with
  | ["clone"; _; dest] =>
      ({| dirs := dirs d; clones := dest :: clones d |}, succeeded)
  | _ =>
      if mem wd (clones d) then (d, succeeded)
      else (d, failed 128 "fatal: not a git repository")
  end.

Definition disk_machine
    (http : string -> string + Response)
    (table : list (string * list Repo)) : System Disk :=
  {| http_NewRequest := fun _ => None;
     client_Do := fun d url _ _ => (d, http url);
     json_Unmarshal := decode table;
     os_Stat := fun d _ name =>
       (d, if mem name (dirs d) then None else Some ErrNotExist);
     os_MkdirAll := fun d _ path _ =>
       ({| dirs := path :: dirs d; clones := clones d |}, None);
     os_Chdir := fun d wd dir => (d, if mem dir (dirs d) then dir else wd);
     cmd_Run := fun d wd _ arg => git d wd arg;
     time_Sleep := fun d _ => d |}.

End Sim.

(** ** The vocabulary of the properties *)

(** The marker of a content takedown in a command's standard error. *)
Definition takedown_marker : string := "DMCA takedown".

(** A failed attempt that [doExec] retries: the run returned an error, the
    captured standard error holds no takedown marker, and the error is not
    an exit with status 1 (it is an exit with another status, the end by a
    signal, or a command that could not be started). *)
Definition transient (r : RunResult) : bool :=
  match run_err r with
  | None => false
  | Some (SpawnError _) => negb (Strings.Contains (captured_stderr r) takedown_marker)
  | Some (ExitError None) => negb (Strings.Contains (captured_stderr r) takedown_marker)
  | Some (ExitError (Some status)) =>
      negb (Strings.Contains (captured_stderr r) takedown_marker)
      && negb (ExitStatus status =? 1)%Z
  end.

(** What one retried attempt leaves in the trace: the run, the two log
    lines, the pause of 200 ms. *)
Definition retry_round (name : string) (arg : list string) : list event :=
  [Run name arg;
   Log "[error] cmd run error cmd:%v arg:%v, error: %v";
   Log "[retry] try rerun cmd: %v";
   Sleep (Millisecond * 200)%Z].

Fixpoint retry_rounds (n : nat) (name : string) (arg : list string) : list event :=
  match n with
  | O => []
  | S n' => (retry_round name arg ++ retry_rounds n' name arg)%list
  end.

(** The three commands. *)
Definition clone_args (repo : Repo) (dest : string) : list string :=
  ["clone"; SSHUrl repo; dest].
Definition reset_args : list string := ["reset"; "--hard"].
Definition pull_args : list string := ["pull"; "--rebase"].

Definition git_clone (repo : Repo) (dest : string) : event :=
  Run "git" (clone_args repo dest).
Definition git_reset : event := Run "git" reset_args.
Definition git_pull : event := Run "git" pull_args.

(** What a pass emits before the clone, when it creates the directory. *)
Definition creation (dir : string) : list event :=
  [Log "sync repo: %v, git url: %v";
   Stat dir;
   Log "local git repo dir not found, try create: %v";
   MkdirAll dir perm_0700;
   Log "git clone repo: %v"].

(** What a pass emits before the reset, when the directory is there. *)
Definition entering (dir : string) : list event :=
  [Log "sync repo: %v, git url: %v"; Stat dir; Chdir dir].


(** The process is in [dir] at some point of a pass: after one of its
    calls, or at its end. *)
Definition enters {W A} (dir : string) (r : result W A) : Prop :=
  exists q, In q (final r :: states r) /\ cwd q = dir.

Section UpToDate.

Context {W : Type} `{System W} {D : Type}.



End UpToDate.

(** [c] does not occur in [s]. *)
Fixpoint free_of (c : ascii) (s : string) : bool :=
  match s with
  | EmptyString => true
  | String a s' => negb (Ascii.eqb c a) && free_of c s'
  end.

(** A URL or a relation that holds neither of the two separators of a Link
    header. *)
Definition clean (s : string) : Prop :=
  free_of "," s = true /\ free_of ";" s = true.

(** The values of a Link header whose first entry is [<url>;rel]: this
    entry alone, or this entry, a comma and anything. *)
Inductive first_entry (url rel : string) : string -> Prop :=
| only_entry : first_entry url rel ("<" ++ url ++ ">;" ++ rel)
| more_entries (others : string) :
    first_entry url rel ("<" ++ url ++ ">;" ++ rel ++ "," ++ others).

(** *** The listing protocol as the specification words it

    "Pagination is signaled via a response header containing comma-separated
    link entries of the form [<url>; rel="relation"]; the implementer must
    parse out the URL for the entry carrying the next relation and stop when
    no such entry exists."  These definitions follow that sentence, not the
    program: they look at every entry. *)

Module Spec.

Fixpoint trim_left (s : string) : string :=
  match s with
  | String " " s' => trim_left s'
  | _ => s
  end.

(** The URL of an entry [<url>; rel=...] if its relation is the next
    one. *)
Definition next_of_entry (entry : string) : option string :=
  match Strings.Split (trim_left entry) ";" with
  | target :: relation :: _ =>
      if Strings.Contains relation "next"
      then Strings.slice target 1 (Strings.len target - 1)
      else None
  | _ => None
  end.

Fixpoint first_next (entries : list string) : option string :=
  match entries with
  | [] => None
  | entry :: entries' =>
      match next_of_entry entry with
      | Some url => Some url
      | None => first_next entries'
      end
  end.

(** The URL of the entry carrying the next relation, wherever it stands
    among the entries; [None] when no entry carries it. *)
Definition next_link (header : string) : option string :=
  first_next (Strings.Split header ",").

(** The pages of the listing that starts at [url]: the records of each
    page, following the next links of a server [http]. *)
Fixpoint listing (http : string -> string + Response)
    (decode : string -> option (list Repo)) (bound : nat) (url : string)
  : list (list Repo) :=
  match bound with
  | O => []
  | S bound' =>
      match http url with
      | inl _ => []
      | inr rsp =>
          match Body rsp with
          | None => []
          | Some content =>
              match decode content with
              | None => []
              | Some recs =>
                  recs ::
                  match next_link (Header_Get (Header rsp) "Link") with
                  | Some url' => listing http decode bound' url'
                  | None => []
                  end
              end
          end
      end
  end.

End Spec.

(** A status in the 2xx range. *)
Definition is_2xx (status : Z) : Prop := (200 <= status < 300)%Z.

Definition is_fatal {A} (o : outcome A) : Prop :=
  match o with
  | Fatal _ => True
  | _ => False
  end.

(** The two ways a turn ends the process: [lg.Fatalf], or a panic. *)
Definition ends_process {A} (o : outcome A) : Prop :=
  match o with
  | Fatal _ => True
  | Panics _ => True
  | _ => False
  end.

(** The answers of the transport that end the process: an error, or a
    status that is not 200. *)
Definition refused (answer : string + Response) : Prop :=
  match answer with
  | inl _ => True
  | inr rsp => StatusCode rsp <> 200%Z
  end.

Section Listing.

Context {W : Type} `{System W}.
Variable cfg : Config.

(** A page of a listing as the first entry of its Link header describes
    it: its records, and the URL and the relation of that first entry. *)
Record page : Type := mkPage {
  records : list Repo;
  target : string;
  relation : string
}.

(** The response [rsp] carries the page [pg]: status 200, a body that
    reads and decodes to the records, a Link header whose first entry is
    [<target>;relation]. *)
Definition carries (rsp : Response) (pg : page) : Prop :=
  StatusCode rsp = 200%Z /\
  (exists content,
     Body rsp = Some content /\ json_Unmarshal content = Some (records pg)) /\
  clean (target pg) /\ clean (relation pg) /\
  first_entry (target pg) (relation pg) (Header_Get (Header rsp) "Link").

(** The Link header of [rsp] has a first entry the loop can index: the
    first comma-separated entry has at least two pieces between
    semicolons, the first of them of two bytes at least (the two
    brackets). *)
Definition linked (rsp : Response) : Prop :=
  exists link0 link1 rest,
    link_of rsp = Some (link0 :: link1 :: rest) /\ 2 <= String.length link0.

(** The body of [rsp] reads and decodes. *)
Definition readable (rsp : Response) : Prop :=
  exists content recs,
    Body rsp = Some content /\ json_Unmarshal content = Some recs.

(** The response [rsp] is one the loop can go through. *)
Definition parsable (rsp : Response) : Prop := linked rsp /\ readable rsp.

(** From the world [w], the server answers the walk that starts at [api]
    with the pages [pages], one after the other: each request is answered
    by the next page, the first entry of every page but the last is its
    next link and names the URL of the following page, and the first
    entry of the last page is not a next link. *)
Fixpoint serves (w : W) (api : string) (pages : list page) : Prop :=
  match pages with
  | [] => True
  | pg :: rest =>
      http_NewRequest api = None /\
      (exists rsp,
         snd (client_Do w api (User cfg) (Token cfg)) = inr rsp /\ carries rsp pg) /\
      match rest with
      | [] => Strings.Contains (relation pg) "next" = false
      | _ :: _ =>
          Strings.Contains (relation pg) "next" = true /\
          serves (time_Sleep (fst (client_Do w api (User cfg) (Token cfg)))
                             (Second * 2)%Z)
                 (target pg) rest
      end
  end.

(** The requests and pauses of a walk over [pages]: a request per page, a
    pause of two seconds between two requests. *)
Fixpoint walk (api : string) (pages : list page) : list event :=
  match pages with
  | [] => []
  | pg :: rest =>
      HttpGet api (User cfg) (Token cfg) ::
      match rest with
      | [] => []
      | _ :: _ => Sleep (2 * Second)%Z :: walk (target pg) rest
      end
  end.

(** What the specification states of a whole listing, for a result of the
    fetcher and the pages of the listing: all the records in order, a
    request per page, a pause of two seconds for every page but one. *)
Definition whole_listing_fetched (r : result W (list Repo))
    (pages : list (list Repo)) : Prop :=
  out r = Returns (concat pages) /\
  List.length (Trace.requests (events r)) = List.length pages /\
  Trace.sleeps (events r) = repeat (2 * Second)%Z (List.length pages - 1).

(** What the specification states of the next link, for the outcome of one
    turn on a response with the Link header [header]: the walk goes on to
    the URL of the entry carrying the next relation, and ends when there is
    none. *)
Definition next_followed (o : outcome turn) (header : string) : Prop :=
  match Spec.next_link header with
  | Some url => exists reps, o = Returns (Continue url reps)
  | None => exists reps, o = Returns (Break reps)
  end.

(** What the specification states of the status, for the outcome of one
    turn and the answer of the transport: fatal exactly on an error or a
    status outside 2xx. *)
Definition fatal_iff_not_2xx (o : outcome turn) (answer : string + Response) : Prop :=
  is_fatal o <->
  match answer with
  | inl _ => True
  | inr rsp => ~ is_2xx (StatusCode rsp)
  end.

(** The same statement when a panic counts as a fatal end too: the turn
    ends the process exactly on an error or a status outside 2xx. *)
Definition ends_iff_not_2xx (o : outcome turn) (answer : string + Response) : Prop :=
  ends_process o <->
  match answer with
  | inl _ => True
  | inr rsp => ~ is_2xx (StatusCode rsp)
  end.

End Listing.

(** ** Concrete runs *)

Module Inputs.

Definition alice : Config :=
  {| User := "alice"; Token := "t"; RepoRootDir := "/data/mirror" |}.

Definition start : Proc unit := {| world := tt; cwd := "/data/mirror" |}.

Definition alice_proj1 : Repo :=
  {| FullName := "alice/alice_proj1"; SSHUrl := "git@host:alice/alice_proj1.git" |}.
Definition alice_proj2 : Repo :=
  {| FullName := "alice/alice_proj2"; SSHUrl := "git@host:alice/alice_proj2.git" |}.
Definition alice_proj3 : Repo :=
  {| FullName := "alice/alice_proj3"; SSHUrl := "git@host:alice/alice_proj3.git" |}.

(** The bodies of the pages, and what they decode to. *)
Definition bodies : list (string * list Repo) :=
  [("[proj1]", [alice_proj1]); ("[proj2]", [alice_proj2]); ("[proj3]", [alice_proj3]); ("[]", [])].

Definition quote : string := String (ascii_of_nat 34) EmptyString.

(** The relation of an entry as the server writes it: a space, [rel=]
    and the name between quotes. *)
Definition rel (name : string) : string := " rel=" ++ quote ++ name ++ quote.

Definition entry (url name : string) : string := "<" ++ url ++ ">;" ++ rel name.

Definition url1 : string := "https://api.github.com/user/repos".
Definition url2 : string := "https://api.github.com/user/repos?page=2".
Definition url3 : string := "https://api.github.com/user/repos?page=3".

Definition ok (link : http_Header) (body : string) : string + Response :=
  inr {| StatusCode := 200; Status := "200 OK"; Header := link; Body := Some body |}.

Definition route (r1 r2 r3 : string + Response) (url : string) : string + Response :=
  if String.eqb url url1 then r1
  else if String.eqb url url2 then r2
  else if String.eqb url url3 then r3
  else inl "no route to host".

Definition no_stat (_ : string) : option os_error := Some ErrNotExist.
Definition no_mkdir (_ : string) : option os_error := None.
Definition no_run (_ : string) (_ : list string) : RunResult := Sim.succeeded.

(** A server of three pages that puts the next link first.  The entries
    after the first one, from the space that follows the comma: *)
Definition next_first_others1 : string := " " ++ entry url3 "last".
Definition next_first_others2 : string :=
  " " ++ entry url3 "last" ++ ", " ++ entry url1 "first" ++ ", " ++ entry url1 "prev".
Definition next_first_others3 : string := " " ++ entry url2 "prev".

Definition next_first_link1 : string := entry url2 "next" ++ "," ++ next_first_others1.
Definition next_first_link2 : string := entry url3 "next" ++ "," ++ next_first_others2.
Definition next_first_link3 : string := entry url1 "first" ++ "," ++ next_first_others3.

Definition next_first_http : string -> string + Response :=
  route (ok [("Link", next_first_link1)] "[proj1]")
        (ok [("Link", next_first_link2)] "[proj2]")
        (ok [("Link", next_first_link3)] "[proj3]").

Definition next_first_server : System unit :=
  Sim.scripted next_first_http bodies no_stat no_mkdir no_run.

Definition next_first_pages : list page :=
  [ {| records := [alice_proj1]; target := url2; relation := rel "next" |};
    {| records := [alice_proj2]; target := url3; relation := rel "next" |};
    {| records := [alice_proj3]; target := url1; relation := rel "first" |} ].

(** A server of the same three pages that puts the link to the previous
    page first, from the second page on. *)
Definition prev_first_link2 : string :=
  entry url1 "prev" ++ ", " ++ entry url3 "next" ++ ", "
  ++ entry url3 "last" ++ ", " ++ entry url1 "first".
Definition prev_first_link3 : string := entry url2 "prev" ++ ", " ++ entry url1 "first".

Definition prev_first_http : string -> string + Response :=
  route (ok [("Link", next_first_link1)] "[proj1]")
        (ok [("Link", prev_first_link2)] "[proj2]")
        (ok [("Link", prev_first_link3)] "[proj3]").

Definition prev_first_server : System unit :=
  Sim.scripted prev_first_http bodies no_stat no_mkdir no_run.

(** A server whose listing fits in one page: the response has no Link
    header. *)
Definition single_page_http (_ : string) : string + Response := ok [] "[]".

Definition single_page_server : System unit :=
  Sim.scripted single_page_http bodies no_stat no_mkdir no_run.

(** A server that answers 204. *)
Definition no_content_http (_ : string) : string + Response :=
  inr {| StatusCode := 204; Status := "204 No Content"; Header := []; Body := Some EmptyString |}.

Definition no_content_server : System unit :=
  Sim.scripted no_content_http bodies no_stat no_mkdir no_run.

(** Machines whose every command ends the same way. *)
Definition runs_end (r : RunResult) : System unit :=
  Sim.scripted single_page_http bodies no_stat no_mkdir (fun _ _ => r).

Definition network_down : RunResult :=
  Sim.failed 128 "fatal: unable to access the remote: could not resolve host".
Definition taken_down : RunResult :=
  Sim.failed 128 "fatal: repository unavailable due to DMCA takedown.".
Definition nothing_to_do : RunResult := Sim.failed 1 EmptyString.

(** A machine on which [os.Stat] is refused. *)
Definition locked : System unit :=
  Sim.scripted single_page_http bodies (fun _ => Some ErrPermission) no_mkdir no_run.

(** The disk machine, before anything is mirrored and once [alice/proj1] is
    cloned. *)
Definition disk : System Sim.Disk := Sim.disk_machine single_page_http bodies.

Definition users : string := "/data/mirror/users".
Definition proj1_dir : string := "/data/mirror/users/alice/alice_proj1".

Definition empty_disk : Sim.Disk := {| Sim.dirs := []; Sim.clones := [] |}.
Definition mirrored : Sim.Disk :=
  {| Sim.dirs := [proj1_dir]; Sim.clones := [proj1_dir] |}.

Definition on (d : Sim.Disk) : Proc Sim.Disk := {| world := d; cwd := "/data/mirror" |}.

End Inputs.

(** ** The rest of the program *)

(** [func (r Repo) String() string]. *)
Definition Repo_String (r : Repo) : string := FullName r ++ ": " ++ SSHUrl r.

(** The whole of [pipeWriter.Write]: the chunk goes to the buffer; a copy,
    trimmed and set between three spaces and a line feed, goes to the
    console [w]; the result is [len(data), nil] whatever the two inner
    writes returned.  [TrimSpace] stands for [bytes.TrimSpace]; the console
    is the list of what was written to it, and the last component is the
    byte count returned. *)
Definition Write (TrimSpace : string -> string)
    (p : pipeWriter) (console : list string) (data : string)
  : pipeWriter * list string * Z :=
  let line := "   " ++ TrimSpace data ++ String (ascii_of_nat 10) EmptyString in
  (pipeWriter_Write p data, (console ++ [line])%list, Strings.len data).

(** The writes of one run, chunk after chunk; the byte counts add up. *)
Fixpoint Write_all (TrimSpace : string -> string)
    (p : pipeWriter) (console : list string) (chunks : list string)
  : pipeWriter * list string * Z :=
  match chunks with
  | [] => (p, console, 0%Z)
  | data :: chunks' =>
      let '(p', console', n) := Write TrimSpace p console data in
      let '(p'', console'', m) := Write_all TrimSpace p' console' chunks' in
      (p'', console'', (n + m)%Z)
  end.

(** The bytes of the chunks, one after the other. *)
Definition all_bytes (chunks : list string) : string :=
  fold_right append EmptyString chunks.

(** How [main] returns when it does: after one of its three messages on
    the console, or after the log line [finished]. *)
Inductive ending : Type :=
| ConfigUnreadable
| ConfigUnparsable
| CredentialsMissing
| Finished.

(** What [main] does before its first log line: the two calls on the
    configuration file, and what it writes on the standard output. *)
Inductive startup : Type :=
| OpenFile (name : string)       (* os.OpenFile, read only, of the file [name] *)
| ReadAll                        (* ioutil.ReadAll of the file opened *)
| FmtPrintln (text : string)     (* fmt.Println of [text] *)
| FmtPrintf (format : string).   (* fmt.Printf with the format [format] *)

Section Main.

Context {W : Type} `{System W}.


(** [json.Unmarshal(content, &cfg)] on the configuration: [None] is a
    decoding error. *)
Variable json_Unmarshal_Config : string -> option Config.

(** [lg.Fatal]: the line is written, then the process exits. *)
Definition lg_Fatal {A} (line : string) : M W A := lg_Fatalf line.

(** [main] from its first log line on, once the configuration [cfg] is
    loaded and its credentials are there.  The two listings are fetched
    with [fuel] turns each. *)
Definition mirror (cfg : Config) (fuel : nat) : M W ending :=
  lg_Printf "mirror mygithub start work, config(user: %v, repo_root_dir: %v)" ;;;
  err <- do_stat (RepoRootDir cfg) ;;
  match err with
  | Some ErrNotExist =>
      lg_Printf "repos dir not exist, try create: %v" ;;;
      err' <- do_mkdirall (RepoRootDir cfg) perm_0700 ;;
      match err' with
      | Some _ => lg_Fatal "create repos dir fail, %v"
      | None => ret tt
      end
  | _ => ret tt
  end ;;;
  do_chdir (RepoRootDir cfg) ;;;
  syncRepos cfg fuel (RepoRootDir cfg ++ "/users") user_repos_uri ;;;
  syncRepos cfg fuel (RepoRootDir cfg ++ "/starred") starred_uri ;;;
  lg_Printf "finished" ;;;
  ret Finished.



(** One line on the standard output. *)
Definition message (s : startup) : Prop :=
  match s with
  | FmtPrintln _ => True
  | FmtPrintf _ => True
  | _ => False
  end.

End Main.

(** ** More ways to read a trace *)

Module Calls.

(** The paths given to [os.Stat], in order. *)
Fixpoint stats (t : list event) : list string :=
  match t with
  | [] => []
  | Stat name :: t' => name :: stats t'
  | _ :: t' => stats t'
  end.

(** The calls to the file system and the commands, in order: the trace
    without its log lines, requests and pauses. *)
Fixpoint local (t : list event) : list event :=
  match t with
  | [] => []
  | Log _ :: t' => local t'
  | HttpGet _ _ _ :: t' => local t'
  | Sleep _ :: t' => local t'
  | e :: t' => e :: local t'
  end.

(** A trace of requests, pauses and log lines only, in which every pause
    lasts two seconds and a request is made only when [rested]: at the
    start, or after a pause that no other request followed. *)
Fixpoint paced (rested : bool) (t : list event) : bool :=
  match t with
  | [] => true
  | Log _ :: t' => paced rested t'
  | HttpGet _ _ _ :: t' => rested && paced false t'
  | Sleep d :: t' => (d =? 2 * Second)%Z && paced true t'
  | _ :: _ => false
  end.

(** The credentials of every request are those of the configuration. *)
Fixpoint credentialed (cfg : Config) (t : list event) : bool :=
  match t with
  | [] => true
  | HttpGet _ user password :: t' =>
      String.eqb user (User cfg) && String.eqb password (Token cfg)
      && credentialed cfg t'
  | _ :: t' => credentialed cfg t'
  end.

(** A trace of runs of the one command, log lines and pauses of 200 ms. *)
Fixpoint only_runs (name : string) (arg : list string) (t : list event) : bool :=
  match t with
  | [] => true
  | Log _ :: t' => only_runs name arg t'
  | Sleep d :: t' => (d =? 200 * Millisecond)%Z && only_runs name arg t'
  | Run name' arg' :: t' =>
      String.eqb name' name
      && (if list_eq_dec string_dec arg' arg then true else false)
      && only_runs name arg t'
  | _ :: _ => false
  end.

End Calls.

Section Chains.

Context {W : Type} `{System W}.
Variable cfg : Config.

(** From the world [w], in the directory [wd], the first [k] attempts of
    the command fail transiently, each followed by its pause, and the
    attempt after them does not: it succeeds, exits with status 1 or
    carries the takedown marker. *)
Fixpoint settles_after (k : nat) (w : W) (wd name : string) (arg : list string) : Prop :=
  match k with
  | O => transient (snd (cmd_Run w wd name arg)) = false
  | S k' =>
      transient (snd (cmd_Run w wd name arg)) = true /\
      settles_after k' (time_Sleep (fst (cmd_Run w wd name arg)) (Millisecond * 200)%Z)
                    wd name arg
  end.

(** From the world [w], the server answers the walk that starts at [api]
    with the pages [pages], each with a next link first in its header, and
    then refuses the request that follows the last of them. *)
Fixpoint breaks_after (w : W) (api : string) (pages : list page) : Prop :=
  match pages with
  | [] =>
      http_NewRequest api = None /\
      refused (snd (client_Do w api (User cfg) (Token cfg)))
  | pg :: rest =>
      http_NewRequest api = None /\
      (exists rsp,
         snd (client_Do w api (User cfg) (Token cfg)) = inr rsp /\ carries rsp pg) /\
      Strings.Contains (relation pg) "next" = true /\
      breaks_after (time_Sleep (fst (client_Do w api (User cfg) (Token cfg)))
                               (Second * 2)%Z)
                   (target pg) rest
  end.

(** Whatever the world, the server answers a request to [api] with the
    page [pg], whose first entry is a next link back to [api]. *)
Definition loops_on (api : string) (pg : page) : Prop :=
  http_NewRequest api = None /\
  target pg = api /\
  Strings.Contains (relation pg) "next" = true /\
  forall w, exists rsp,
    snd (client_Do w api (User cfg) (Token cfg)) = inr rsp /\ carries rsp pg.

End Chains.

(** ** More machines *)

Module Cases.

(** A machine that counts the commands it has run: the first [n] fail with
    status 128, the next ones succeed. *)
Definition flaky (n : nat) : System nat :=
  {| http_NewRequest := fun _ => None;
     client_Do := fun w url _ _ => (w, Inputs.single_page_http url);
     json_Unmarshal := Sim.decode Inputs.bodies;
     os_Stat := fun w _ _ => (w, None);
     os_MkdirAll := fun w _ _ _ => (w, None);
     os_Chdir := fun w _ dir => (w, dir);
     cmd_Run := fun w _ _ _ =>
       (S w, if (w <? n)%nat then Inputs.network_down else Sim.succeeded);
     time_Sleep := fun w _ => w |}.

(** A machine on which the directory of every repository is there and is
    closed to the process (it lacks the search permission): [os.Stat]
    succeeds, [os.Chdir] fails and leaves the process where it is. *)
Definition closed_directory : System unit :=
  {| http_NewRequest := fun _ => None;
     client_Do := fun w url _ _ => (w, Inputs.single_page_http url);
     json_Unmarshal := Sim.decode Inputs.bodies;
     os_Stat := fun w _ _ => (w, None);
     os_MkdirAll := fun w _ _ _ => (w, None);
     os_Chdir := fun w wd _ => (w, wd);
     cmd_Run := fun w _ _ _ => (w, Sim.succeeded);
     time_Sleep := fun w _ => w |}.

(** A machine on which a path exists and is no directory: [os.Stat]
    succeeds, [os.Chdir] fails and leaves the process where it is. *)
Definition file_in_the_way : System unit :=
  {| http_NewRequest := fun _ => None;
     client_Do := fun w url _ _ => (w, Inputs.single_page_http url);
     json_Unmarshal := Sim.decode Inputs.bodies;
     os_Stat := fun w _ _ => (w, None);
     os_MkdirAll := fun w _ _ _ => (w, None);
     os_Chdir := fun w wd _ => (w, wd);
     cmd_Run := fun w _ _ _ => (w, Sim.succeeded);
     time_Sleep := fun w _ => w |}.

(** A server whose one page links to itself as the next page. *)
Definition loop_link : string := Inputs.entry Inputs.url1 "next".

Definition loop_http (_ : string) : string + Response :=
  Inputs.ok [("Link", loop_link)] "[proj1]".

Definition loop_server : System unit :=
  Sim.scripted loop_http Inputs.bodies Inputs.no_stat Inputs.no_mkdir Inputs.no_run.

Definition loop_page : page :=
  {| records := [Inputs.alice_proj1]; target := Inputs.url1;
     relation := Inputs.rel "next" |}.

(** A server whose second page is an internal error. *)
Definition broken_http : string -> string + Response :=
  Inputs.route
    (Inputs.ok [("Link", Inputs.next_first_link1)] "[proj1]")
    (inr {| StatusCode := 500; Status := "500 Internal Server Error";
            Header := []; Body := Some EmptyString |})
    (inl "unreachable").

Definition broken_server : System unit :=
  Sim.scripted broken_http Inputs.bodies Inputs.no_stat Inputs.no_mkdir Inputs.no_run.

(** A server whose Link header is a bare target, with no relation. *)
Definition bare_http (_ : string) : string + Response :=
  Inputs.ok [("Link", "<https://api.github.com/user/repos?page=2>")] "[proj1]".

Definition bare_server : System unit :=
  Sim.scripted bare_http Inputs.bodies Inputs.no_stat Inputs.no_mkdir Inputs.no_run.

(** A server whose body is no list of repositories. *)
Definition garbled_http (_ : string) : string + Response :=
  Inputs.ok [("Link", Inputs.next_first_link1)] "<html>rate limited</html>".

Definition garbled_server : System unit :=
  Sim.scripted garbled_http Inputs.bodies Inputs.no_stat Inputs.no_mkdir Inputs.no_run.

(** A server of the three pages, on a machine where every directory is
    there already. *)
Definition mirrored_pages : System unit :=
  Sim.scripted Inputs.next_first_http Inputs.bodies (fun _ => None)
               Inputs.no_mkdir Inputs.no_run.

(** A machine whose root can be neither found nor created. *)
Definition read_only : System unit :=
  Sim.scripted Inputs.single_page_http Inputs.bodies Inputs.no_stat
               (fun _ => Some ErrPermission) Inputs.no_run.

(** A machine whose root is there and whose server answers 204. *)
Definition refusing : System unit :=
  Sim.scripted Inputs.no_content_http Inputs.bodies (fun _ => None)
               Inputs.no_mkdir Inputs.no_run.

(** Two runs that wrote the same bytes, cut differently. *)
Definition cut_in_two : RunResult :=
  {| stdout_writes := [];
     stderr_writes := ["fatal: unavailable due to DMCA take"; "down."];
     run_err := Some (ExitError (Some (Exited 128))) |}.

Definition in_one_piece : RunResult :=
  {| stdout_writes := ["Cloning into proj1"];
     stderr_writes := ["fatal: unavailable due to DMCA takedown."];
     run_err := Some (ExitError (Some (Exited 128))) |}.


End Cases.

(** ** Properties *)

(** *** Strings *)

Lemma append_nil_r (s : string) : s ++ EmptyString = s.
Proof. induction s as [|a s IH]; cbn; [reflexivity | now rewrite IH]. Qed.

Lemma append_assoc (a b d : string) : (a ++ b) ++ d = a ++ (b ++ d).
Proof. induction a as [|x a IH]; cbn; [reflexivity | now rewrite IH]. Qed.

Lemma length_append (a b : string) :
  String.length (a ++ b) = String.length a + String.length b.
Proof. induction a as [|x a IH]; cbn; [reflexivity | now rewrite IH]. Qed.

Lemma prefix_one (sep a : ascii) (s : string) :
  String.prefix (String sep EmptyString) (String a s) = Ascii.eqb sep a.
Proof.
  cbn. destruct (ascii_dec sep a) as [->|N].
  - rewrite Ascii.eqb_refl. now destruct s.
  - symmetry. now apply Ascii.eqb_neq.
Qed.

Lemma free_of_app (sep : ascii) (a b : string) :
  free_of sep (a ++ b) = free_of sep a && free_of sep b.
Proof.
  induction a as [|x a IH]; cbn; [reflexivity|].
  now rewrite IH, andb_assoc.
Qed.

(** [Split] cuts at the first separator: the piece before it is the first
    element. *)
Lemma split_from_free (sep : ascii) (e rest cur : string) :
  free_of sep e = true ->
  Strings.split_from (String sep EmptyString) (e ++ String sep rest) 0 cur
    = (cur ++ e) :: Strings.split_from (String sep EmptyString) rest 0 EmptyString.
Proof.
  revert cur. induction e as [|a e IH]; intros cur Hf.
  - cbn [append Strings.split_from]. rewrite prefix_one, Ascii.eqb_refl.
    now rewrite append_nil_r.
  - cbn [free_of] in Hf. apply andb_prop in Hf. destruct Hf as [Ha He].
    cbn [append Strings.split_from]. rewrite prefix_one.
    apply negb_true_iff in Ha. rewrite Ha.
    rewrite IH by exact He. now rewrite append_assoc.
Qed.

(** A string without the separator is one piece. *)
Lemma split_from_free_end (sep : ascii) (e cur : string) :
  free_of sep e = true ->
  Strings.split_from (String sep EmptyString) e 0 cur = [cur ++ e].
Proof.
  revert cur. induction e as [|a e IH]; intros cur Hf.
  - cbn. now rewrite append_nil_r.
  - cbn [free_of] in Hf. apply andb_prop in Hf. destruct Hf as [Ha He].
    cbn [Strings.split_from]. rewrite prefix_one.
    apply negb_true_iff in Ha. rewrite Ha.
    rewrite IH by exact He. now rewrite append_assoc.
Qed.

Lemma substring_prefix (u v : string) :
  String.substring 0 (String.length u) (u ++ v) = u.
Proof.
  induction u as [|a u IH]; cbn.
  - now destruct v.
  - now rewrite IH.
Qed.

(** [target[1 : len(target)-1]] takes the URL out of [<url>]. *)
Lemma slice_brackets (url : string) :
  let target := "<" ++ url ++ ">" in
  Strings.slice target 1 (Strings.len target - 1) = Some url.
Proof.
  cbn zeta. unfold Strings.slice, Strings.len.
  cbn [append String.length].
  rewrite length_append. cbn [String.length].
  replace (Z.of_nat (S (String.length url + 1)) - 1 - 1)%Z
    with (Z.of_nat (String.length url)) by lia.
  replace ((0 <=? 1)%Z && (1 <=? Z.of_nat (S (String.length url + 1)) - 1)%Z
           && (Z.of_nat (S (String.length url + 1)) - 1
               <=? Z.of_nat (S (String.length url + 1)))%Z) with true.
  - rewrite Nat2Z.id. change (Z.to_nat 1) with 1. cbn [String.substring].
    now rewrite substring_prefix.
  - symmetry. rewrite !andb_true_iff, !Z.leb_le. lia.
Qed.

Lemma slice_short (h : string) :
  String.length h < 2 -> Strings.slice h 1 (Strings.len h - 1) = None.
Proof.
  intros Hlen. unfold Strings.slice, Strings.len.
  destruct (1 <=? Z.of_nat (String.length h) - 1)%Z eqn:E.
  - apply Z.leb_le in E. lia.
  - cbn [Z.leb andb]. reflexivity.
Qed.

Lemma slice_long (h : string) :
  2 <= String.length h -> exists api, Strings.slice h 1 (Strings.len h - 1) = Some api.
Proof.
  intros Hlen. unfold Strings.slice, Strings.len.
  replace ((0 <=? 1)%Z && (1 <=? Z.of_nat (String.length h) - 1)%Z
           && (Z.of_nat (String.length h) - 1 <=? Z.of_nat (String.length h))%Z)
    with true.
  - eexists. reflexivity.
  - symmetry. rewrite !andb_true_iff, !Z.leb_le. lia.
Qed.

Section Properties.

Context {W : Type} `{System W}.
Variable cfg : Config.

(** *** Sequencing *)

Lemma bind_step {A B} (m : M W A) (k : A -> M W B) p a p' e :
  m p = step a p' e -> bind m k p = after e p' (k a p').
Proof. intros E. unfold bind. rewrite E. reflexivity. Qed.

Lemma bind_emit {B} (e : event) (k : unit -> M W B) p :
  bind (emit e) k p = after e p (k tt p).
Proof. reflexivity. Qed.

Lemma bind_returns {A B} (m : M W A) (k : A -> M W B) p a :
  out (m p) = Returns a ->
  bind m k p =
    {| out := out (k a (final (m p)));
       final := final (k a (final (m p)));
       events := events (m p) ++ events (k a (final (m p)));
       states := states (m p) ++ states (k a (final (m p))) |}.
Proof. intros E. unfold bind. rewrite E. reflexivity. Qed.

Lemma do_run_step name arg p :
  do_run name arg p =
    step (snd (cmd_Run (world p) (cwd p) name arg))
         {| world := fst (cmd_Run (world p) (cwd p) name arg); cwd := cwd p |}
         (Run name arg).
Proof. unfold do_run. destruct (cmd_Run _ _ _ _). reflexivity. Qed.

Lemma do_stat_step name p :
  do_stat name p =
    step (snd (os_Stat (world p) (cwd p) name))
         {| world := fst (os_Stat (world p) (cwd p) name); cwd := cwd p |}
         (Stat name).
Proof. unfold do_stat. destruct (os_Stat _ _ _). reflexivity. Qed.

Lemma do_mkdirall_step path perm p :
  do_mkdirall path perm p =
    step (snd (os_MkdirAll (world p) (cwd p) path perm))
         {| world := fst (os_MkdirAll (world p) (cwd p) path perm); cwd := cwd p |}
         (MkdirAll path perm).
Proof. unfold do_mkdirall. destruct (os_MkdirAll _ _ _ _). reflexivity. Qed.

Lemma do_chdir_step dir p :
  do_chdir dir p =
    step tt
         {| world := fst (os_Chdir (world p) (cwd p) dir);
            cwd := snd (os_Chdir (world p) (cwd p) dir) |}
         (Chdir dir).
Proof. unfold do_chdir. destruct (os_Chdir _ _ _). reflexivity. Qed.

Lemma do_request_step url p :
  do_request cfg url p =
    step (snd (client_Do (world p) url (User cfg) (Token cfg)))
         {| world := fst (client_Do (world p) url (User cfg) (Token cfg));
            cwd := cwd p |}
         (HttpGet url (User cfg) (Token cfg)).
Proof. unfold do_request. destruct (client_Do _ _ _ _). reflexivity. Qed.

Lemma do_sleep_step d p :
  do_sleep d p =
    step tt {| world := time_Sleep (world p) d; cwd := cwd p |} (Sleep d).
Proof. reflexivity. Qed.

(** *** The command runner *)

(** One turn of the loop of [doExec], by the result of the run. *)
Lemma doExec_loop_turn remaining name arg p :
  let ran := cmd_Run (world p) (cwd p) name arg in
  let p' := {| world := fst ran; cwd := cwd p |} in
  doExec_loop (S remaining) name arg p =
    after (Run name arg) p'
      (if transient (snd ran)
       then
         after (Log "[error] cmd run error cmd:%v arg:%v, error: %v") p'
           (after (Log "[retry] try rerun cmd: %v") p'
              (after (Sleep (Millisecond * 200)%Z)
                 {| world := time_Sleep (fst ran) (Millisecond * 200)%Z; cwd := cwd p |}
                 (doExec_loop remaining name arg
                    {| world := time_Sleep (fst ran) (Millisecond * 200)%Z;
                       cwd := cwd p |})))
       else ret tt p').
Proof.
  intros ran p'. cbn [doExec_loop].
  erewrite bind_step by apply do_run_step.
  fold ran. fold p'. f_equal.
  unfold transient, takedown_marker.
  destruct (run_err (snd ran)) as [[[status|]|msg]|]; try reflexivity;
    destruct (Strings.Contains (captured_stderr (snd ran)) "DMCA takedown");
    try reflexivity; cbn [exit_status_is_1 negb andb].
  - destruct (ExitStatus status =? 1)%Z; reflexivity.
Qed.

(** [doExec] always returns, leaves the working directory as it was, and
    all it does besides logging and pausing is to run the one command, at
    least once and at most [remaining] times. *)
Lemma doExec_loop_shape remaining name arg p :
  out (doExec_loop remaining name arg p) = Returns tt /\
  cwd (final (doExec_loop remaining name arg p)) = cwd p /\
  exists k,
    k <= remaining /\ (0 < remaining -> 0 < k) /\
    Trace.ops (events (doExec_loop remaining name arg p)) = repeat (Run name arg) k.
Proof.
  revert p. induction remaining as [|n IH]; intros p.
  - split; [reflexivity|]. split; [reflexivity|].
    exists 0. split; [lia|]. split; [lia|reflexivity].
  - rewrite doExec_loop_turn.
    destruct (transient _).
    + match goal with |- context [doExec_loop n name arg ?q] =>
        destruct (IH q) as (Ho & Hc & k & Hk & _ & Hops) end.
      cbn [after out final events Trace.ops cwd] in *.
      split; [exact Ho|]. split; [exact Hc|].
      exists (S k). split; [lia|]. split; [lia|].
      cbn [repeat]. now rewrite Hops.
    + split; [reflexivity|]. split; [reflexivity|].
      exists 1. split; [lia|]. split; [lia|reflexivity].
Qed.

Lemma doExec_shape name arg p :
  out (doExec name arg p) = Returns tt /\
  cwd (final (doExec name arg p)) = cwd p /\
  exists k,
    1 <= k <= 20 /\
    Trace.ops (events (doExec name arg p)) = repeat (Run name arg) k.
Proof.
  destruct (doExec_loop_shape 20 name arg p) as (Ho & Hc & k & Hk & Hpos & Hops).
  split; [exact Ho|]. split; [exact Hc|].
  exists k. split; [|exact Hops].
  split; [apply Hpos; lia | exact Hk].
Qed.

Lemma doExec_loop_all_transient remaining name arg :
  (forall w wd, transient (snd (cmd_Run w wd name arg)) = true) ->
  forall p,
    events (doExec_loop remaining name arg p) = retry_rounds remaining name arg.
Proof.
  intros Hall. induction remaining as [|n IH]; intros p.
  - reflexivity.
  - rewrite doExec_loop_turn, Hall.
    cbn [after events retry_rounds retry_round app].
    now rewrite IH.
Qed.

Lemma runs_retry_rounds n name arg :
  Trace.runs (retry_rounds n name arg) = repeat (name, arg) n.
Proof. induction n as [|n IH]; [reflexivity|]. cbn. now rewrite IH. Qed.

(** The trace of [doExec]: some retried attempts, then, unless the attempts
    are used up, one last run that is not retried. *)
Lemma doExec_loop_rounds remaining name arg p :
  exists k,
    k <= remaining /\
    events (doExec_loop remaining name arg p)
      = (retry_rounds k name arg
           ++ (if (k <? remaining)%nat then [Run name arg] else []))%list.
Proof.
  revert p. induction remaining as [|n IH]; intros p.
  - exists 0. split; [lia|reflexivity].
  - rewrite doExec_loop_turn. destruct (transient _).
    + match goal with |- context [doExec_loop n name arg ?q] =>
        destruct (IH q) as (k & Hk & Hev) end.
      exists (S k). split; [lia|].
      cbn [after events retry_rounds retry_round app]. rewrite Hev.
      reflexivity.
    + exists 0. split; [lia|reflexivity].
Qed.

(** C3.  Take a command whose failures are all transient: each attempt
    either succeeds or fails with an error that is neither an exit with
    status 1 nor accompanied by the takedown marker.  [doExec] returns to
    its caller (no [lg.Fatalf], no panic); every failed attempt is followed
    by the two log lines and a pause of 200 ms, then by the next attempt;
    there are at most 20 attempts.  If no attempt succeeds there are
    exactly 20 of them, each followed by its log lines and its pause, and
    [doExec] returns all the same. *)
Theorem doExec_retries_transient name arg p :
  (forall w wd,
     run_err (snd (cmd_Run w wd name arg)) = None \/
     transient (snd (cmd_Run w wd name arg)) = true) ->
  out (doExec name arg p) = Returns tt /\
  (exists k,
     k <= 20 /\
     events (doExec name arg p)
       = (retry_rounds k name arg ++ (if (k <? 20)%nat then [Run name arg] else []))%list) /\
  ((forall w wd, run_err (snd (cmd_Run w wd name arg)) <> None) ->
     events (doExec name arg p) = retry_rounds 20 name arg /\
     Trace.runs (events (doExec name arg p)) = repeat (name, arg) 20 /\
     Trace.sleeps (events (doExec name arg p)) = repeat (200 * Millisecond)%Z 20).
Proof.
  intros Hall.
  split; [apply doExec_shape|].
  split; [apply doExec_loop_rounds|].
  intros Hfail.
  assert (Htr : forall w wd, transient (snd (cmd_Run w wd name arg)) = true).
  { intros w wd. destruct (Hall w wd) as [Hnone|Ht]; [|exact Ht].
    now elim (Hfail w wd). }
  pose proof (doExec_loop_all_transient 20 name arg Htr p) as Hev.
  fold (doExec name arg) in Hev.
  rewrite Hev. split; [reflexivity|]. split; [apply runs_retry_rounds|].
  reflexivity.
Qed.

(** C4.  An attempt whose captured standard error contains the takedown
    marker is the last one, whatever the run returned (an error with any
    exit status, or none): the loop ends after this run with nothing
    logged and no pause, and returns.  This holds at every attempt, the
    first included. *)
Theorem doExec_takedown_stops remaining name arg p :
  Strings.Contains
    (captured_stderr (snd (cmd_Run (world p) (cwd p) name arg)))
    takedown_marker = true ->
  out (doExec_loop (S remaining) name arg p) = Returns tt /\
  events (doExec_loop (S remaining) name arg p) = [Run name arg] /\
  out (doExec name arg p) = Returns tt /\
  events (doExec name arg p) = [Run name arg].
Proof.
  intros Hm.
  assert (Ht : transient (snd (cmd_Run (world p) (cwd p) name arg)) = false).
  { unfold transient. rewrite Hm.
    destruct (run_err _) as [[[status|]|msg]|]; reflexivity. }
  unfold doExec.
  rewrite (doExec_loop_turn remaining), (doExec_loop_turn 19), Ht.
  repeat split.
Qed.

(** C5.  An attempt that exits with status 1 is the last one: the loop
    ends after this run with nothing logged and no pause, and [doExec]
    returns to its caller as it does after a success. *)
Theorem doExec_exit_1_stops remaining name arg p :
  run_err (snd (cmd_Run (world p) (cwd p) name arg))
    = Some (ExitError (Some (Exited 1))) ->
  out (doExec_loop (S remaining) name arg p) = Returns tt /\
  events (doExec_loop (S remaining) name arg p) = [Run name arg] /\
  out (doExec name arg p) = Returns tt /\
  events (doExec name arg p) = [Run name arg].
Proof.
  intros He.
  assert (Ht : transient (snd (cmd_Run (world p) (cwd p) name arg)) = false).
  { unfold transient. rewrite He. cbn. apply andb_false_r. }
  unfold doExec.
  rewrite (doExec_loop_turn remaining), (doExec_loop_turn 19), Ht.
  repeat split.
Qed.

(** *** The reconciler *)

Lemma ops_app t1 t2 : Trace.ops (t1 ++ t2) = (Trace.ops t1 ++ Trace.ops t2)%list.
Proof.
  induction t1 as [|e t1 IH]; [reflexivity|].
  destruct e; cbn; now rewrite ?IH.
Qed.



(** [syncRepo] when [os.Stat] returns an error, whichever it is. *)
Lemma syncRepo_stat_error rootDir repo p e :
  let dir := localDir rootDir repo in
  let st := os_Stat (world p) (cwd p) dir in
  let mk := os_MkdirAll (fst st) (cwd p) dir perm_0700 in
  let r := syncRepo rootDir repo p in
  snd st = Some e ->
  (snd mk <> None ->
     out r = Fatal "create local repo dir error: %v" /\
     Trace.ops (events r) = [Stat dir; MkdirAll dir perm_0700]) /\
  (snd mk = None ->
     out r = Returns tt /\
     (exists q, events r = (creation dir ++ events (doExec "git" (clone_args repo dir) q))%list) /\
     exists k, 1 <= k <= 20 /\
       Trace.ops (events r)
         = Stat dir :: MkdirAll dir perm_0700 :: repeat (git_clone repo dir) k).
Proof.
  intros dir st mk r Hst. subst r. unfold syncRepo, lg_Printf.
  fold (localDir rootDir repo). fold dir.
  rewrite bind_emit. erewrite bind_step by apply do_stat_step.
  fold st. rewrite Hst. rewrite bind_emit.
  erewrite bind_step by apply do_mkdirall_step.
  cbn [world cwd]. fold mk.
  destruct (snd mk) as [e'|].
  - split; [intros _|discriminate]. split; reflexivity.
  - split; [intros N; now elim N|intros _].
    rewrite bind_emit. cbn [after out events Trace.ops].
    match goal with |- context [doExec ?n ?a ?q] =>
      destruct (doExec_shape n a q) as (Ho & _ & k & Hk & Hops) end.
    split; [exact Ho|]. split; [eexists; reflexivity|].
    exists k. split; [exact Hk|]. now rewrite Hops.
Qed.

(** [syncRepo] when [os.Stat] succeeds. *)
Lemma syncRepo_stat_ok rootDir repo p :
  let dir := localDir rootDir repo in
  let r := syncRepo rootDir repo p in
  snd (os_Stat (world p) (cwd p) dir) = None ->
  out r = Returns tt /\
  (exists q q',
     events r = (entering dir ++ events (doExec "git" reset_args q)
                             ++ events (doExec "git" pull_args q'))%list) /\
  exists k m, 1 <= k <= 20 /\ 1 <= m <= 20 /\
    Trace.ops (events r)
      = (Stat dir :: Chdir dir :: repeat git_reset k ++ repeat git_pull m)%list.
Proof.
  intros dir r Hst. subst r. unfold syncRepo, lg_Printf.
  fold (localDir rootDir repo). fold dir.
  rewrite bind_emit. erewrite bind_step by apply do_stat_step.
  rewrite Hst. erewrite bind_step by apply do_chdir_step.
  cbn [after out events Trace.ops].
  match goal with |- context [bind (doExec ?n ?a) ?k ?q] =>
    destruct (doExec_shape n a q) as (Ho & _ & k1 & Hk1 & Hops1);
    rewrite (bind_returns (doExec n a) k q Ho)
  end.
  cbn [out events].
  match goal with |- context [doExec "git" ["pull"; "--rebase"] ?q] =>
    destruct (doExec_shape "git" ["pull"; "--rebase"] q) as (Ho2 & _ & k2 & Hk2 & Hops2)
  end.
  split; [exact Ho2|]. split; [eexists; eexists; reflexivity|].
  exists k1, k2. split; [exact Hk1|]. split; [exact Hk2|].
  rewrite ops_app, Hops1, Hops2. reflexivity.
Qed.

(** The state in which the clone is run: the world [os.MkdirAll] left, in
    the working directory of the start. *)
Lemma syncRepo_created_at rootDir repo p e :
  let dir := localDir rootDir repo in
  let st := os_Stat (world p) (cwd p) dir in
  let mk := os_MkdirAll (fst st) (cwd p) dir perm_0700 in
  let r := syncRepo rootDir repo p in
  snd st = Some e ->
  snd mk = None ->
  events r = (creation dir
                ++ events (doExec "git" (clone_args repo dir)
                                  {| world := fst mk; cwd := cwd p |}))%list /\
  cwd (final r) = cwd p.
Proof.
  intros dir st mk r Hst Hmk. subst r. unfold syncRepo, lg_Printf.
  fold (localDir rootDir repo). fold dir.
  rewrite bind_emit. erewrite bind_step by apply do_stat_step.
  fold st. rewrite Hst. rewrite bind_emit.
  erewrite bind_step by apply do_mkdirall_step.
  cbn [world cwd]. fold mk. rewrite Hmk. rewrite bind_emit.
  cbn [after events final creation app].
  destruct (doExec_shape "git" (clone_args repo dir) {| world := fst mk; cwd := cwd p |})
    as (_ & Hc & _).
  split; [reflexivity | exact Hc].
Qed.

(** The states in which the reset and the pull are run: the one
    [os.Chdir] left, whatever it returned, and the one the reset left,
    in the same working directory. *)
Lemma syncRepo_entered_at rootDir repo p :
  let dir := localDir rootDir repo in
  let st := os_Stat (world p) (cwd p) dir in
  let ch := os_Chdir (fst st) (cwd p) dir in
  let q := {| world := fst ch; cwd := snd ch |} in
  let q' := final (doExec "git" reset_args q) in
  let r := syncRepo rootDir repo p in
  snd st = None ->
  events r = (entering dir ++ events (doExec "git" reset_args q)
                          ++ events (doExec "git" pull_args q'))%list /\
  cwd q' = snd ch /\
  cwd (final r) = snd ch.
Proof.
  intros dir st ch q q' r Hst. subst r. unfold syncRepo, lg_Printf. fold dir.
  rewrite bind_emit. erewrite bind_step by apply do_stat_step.
  fold st. rewrite Hst. erewrite bind_step by apply do_chdir_step.
  cbn [world cwd]. fold ch. fold q.
  destruct (doExec_shape "git" reset_args q) as (Ho & Hc & _).
  fold q' in Hc.
  change ["reset"; "--hard"] with reset_args.
  change ["pull"; "--rebase"] with pull_args.
  rewrite (bind_returns (doExec "git" reset_args) _ q Ho). fold q'.
  destruct (doExec_shape "git" pull_args q') as (_ & Hc' & _).
  cbn [after out final events app entering].
  split; [reflexivity|]. split; [exact Hc|]. now rewrite Hc', Hc.
Qed.

(** C2 (what the program does).  For a record whose directory does not
    exist ([os.Stat] answers that it does not), the reconciler creates
    the directory with its parents, with the permission bits 0700; if
    that fails the process ends in [lg.Fatalf] with no command run;
    otherwise it calls the runner once, for
    [git clone <ssh url> <directory>], in the state the creation left and
    in the working directory of the start (what follows the creation in
    the trace is the trace of that one [doExec], 1 to 20 attempts of the
    clone) and nothing else: no [os.Chdir], no reset, no pull.  For a
    record whose directory exists ([os.Stat] succeeds), it calls
    [os.Chdir] on the directory, then the runner for [git reset --hard] in
    the state that call left, then the runner for [git pull --rebase] in
    the state the reset left (1 to 20 attempts each), and never creates a
    directory nor clones.  The result of [os.Chdir] is not looked at: the
    working directory of both commands and of the end of the pass is the
    one [os.Chdir] left, whichever it is; it is the directory of the
    repository, as the claim has it, when [os.Chdir] has put the process
    there. *)
Theorem syncRepo_clone_or_update rootDir repo p :
  let dir := localDir rootDir repo in
  let st := os_Stat (world p) (cwd p) dir in
  let mk := os_MkdirAll (fst st) (cwd p) dir perm_0700 in
  let ch := os_Chdir (fst st) (cwd p) dir in
  let r := syncRepo rootDir repo p in
  (snd st = Some ErrNotExist ->
     (snd mk <> None ->
        out r = Fatal "create local repo dir error: %v" /\
        Trace.ops (events r) = [Stat dir; MkdirAll dir perm_0700]) /\
     (snd mk = None ->
        out r = Returns tt /\
        events r = (creation dir
                      ++ events (doExec "git" (clone_args repo dir)
                                        {| world := fst mk; cwd := cwd p |}))%list /\
        cwd (final r) = cwd p /\
        exists k, 1 <= k <= 20 /\
          Trace.ops (events r)
            = Stat dir :: MkdirAll dir perm_0700 :: repeat (git_clone repo dir) k)) /\
  (snd st = None ->
     let q := {| world := fst ch; cwd := snd ch |} in
     let q' := final (doExec "git" reset_args q) in
     out r = Returns tt /\
     events r = (entering dir ++ events (doExec "git" reset_args q)
                             ++ events (doExec "git" pull_args q'))%list /\
     cwd q' = snd ch /\
     cwd (final r) = snd ch /\
     (snd ch = dir -> cwd q = dir /\ cwd q' = dir /\ enters dir r) /\
     exists k m, 1 <= k <= 20 /\ 1 <= m <= 20 /\
       Trace.ops (events r)
         = (Stat dir :: Chdir dir :: repeat git_reset k ++ repeat git_pull m)%list).
Proof.
  intros dir st mk ch r. split.
  - intros Hst.
    destruct (syncRepo_stat_error rootDir repo p Hst) as [Hfails Hcreated].
    split; [exact Hfails|]. intros Hmk.
    destruct (Hcreated Hmk) as (Ho & _ & Hops).
    destruct (syncRepo_created_at rootDir repo p Hst Hmk) as [Hev Hcwd].
    split; [exact Ho|]. split; [exact Hev|]. split; [exact Hcwd | exact Hops].
  - intros Hst q q'.
    destruct (syncRepo_stat_ok rootDir repo p Hst) as (Ho & _ & Hops).
    destruct (syncRepo_entered_at rootDir repo p Hst) as (Hev & Hq' & Hend).
    split; [exact Ho|]. split; [exact Hev|]. split; [exact Hq'|].
    split; [exact Hend|]. split; [|exact Hops].
    intros Hin. split; [exact Hin|]. split; [now rewrite <- Hin|].
    exists (final r). split; [left; reflexivity|]. fold r in Hend. now rewrite <- Hin.
Qed.

(** C10.  The branch is chosen on [err != nil] alone: when [os.Stat]
    fails for another reason than a missing path (a permission error, for
    one), the reconciler takes the creation-and-clone branch as it does
    for a missing path: [os.MkdirAll] with 0700, [lg.Fatalf] if that
    fails, else [git clone]; it does not change directory and runs
    neither reset nor pull. *)
Theorem syncRepo_any_stat_error_clones rootDir repo p e :
  let dir := localDir rootDir repo in
  let st := os_Stat (world p) (cwd p) dir in
  let mk := os_MkdirAll (fst st) (cwd p) dir perm_0700 in
  let r := syncRepo rootDir repo p in
  e <> ErrNotExist ->
  snd st = Some e ->
  (snd mk <> None ->
     out r = Fatal "create local repo dir error: %v" /\
     Trace.ops (events r) = [Stat dir; MkdirAll dir perm_0700]) /\
  (snd mk = None ->
     out r = Returns tt /\
     (exists q, events r = (creation dir ++ events (doExec "git" (clone_args repo dir) q))%list) /\
     exists k, 1 <= k <= 20 /\
       Trace.ops (events r)
         = Stat dir :: MkdirAll dir perm_0700 :: repeat (git_clone repo dir) k).
Proof.
  intros dir st mk r _ Hst. exact (syncRepo_stat_error rootDir repo p Hst).
Qed.

(** *** Idempotence *)






(** *** The fetcher *)

Lemma append_all_app (reps recs : list Repo) :
  append_all reps recs = (reps ++ recs)%list.
Proof.
  unfold append_all. revert reps.
  induction recs as [|r recs IH]; intros reps; cbn.
  - now rewrite app_nil_r.
  - rewrite IH, <- app_assoc. reflexivity.
Qed.

(** What the program reads in a Link header whose first entry is
    [<url>;rel]: the two pieces of that entry. *)
Lemma link_of_first_entry rsp url rel :
  clean url -> clean rel ->
  first_entry url rel (Header_Get (Header rsp) "Link") ->
  link_of rsp = Some ["<" ++ url ++ ">"; rel].
Proof.
  intros [Hu1 Hu2] [Hr1 Hr2] Hh. unfold link_of, Strings.Split.
  assert (Hsemi :
    Strings.split_from ";" ("<" ++ url ++ ">;" ++ rel) 0 EmptyString
      = ["<" ++ url ++ ">"; rel]).
  { change ("<" ++ url ++ ">;" ++ rel)
      with (String "<" (url ++ String ">" (String ";" rel))).
    replace (String "<" (url ++ String ">" (String ";" rel)))
      with (("<" ++ url ++ ">") ++ String ";" rel)
      by (cbn; now rewrite append_assoc).
    rewrite split_from_free.
    - rewrite split_from_free_end by exact Hr2. reflexivity.
    - cbn. rewrite free_of_app, Hu2. reflexivity. }
  assert (Hfree : free_of "," ("<" ++ url ++ ">;" ++ rel) = true).
  { cbn. rewrite free_of_app, Hu1. cbn. exact Hr1. }
  inversion Hh as [E | others E]; clear Hh.
  - rewrite split_from_free_end by exact Hfree.
    cbn [append]. cbn [append] in Hsemi. now rewrite Hsemi.
  - replace (String "<" (url ++ String ">" (String ";" (rel ++ String "," others))))
      with (("<" ++ url ++ ">;" ++ rel) ++ String "," others)
      by (cbn; now rewrite !append_assoc).
    rewrite split_from_free by exact Hfree.
    cbn [append]. cbn [append] in Hsemi. now rewrite Hsemi.
Qed.

(** One turn of the loop on a response that carries a page: the walk
    goes on to the URL of the first entry when the relation of the first
    entry contains [next], and ends otherwise. *)
Lemma fetchPage_carries uri api reps p rsp pg :
  http_NewRequest api = None ->
  snd (client_Do (world p) api (User cfg) (Token cfg)) = inr rsp ->
  carries rsp pg ->
  let p1 := {| world := fst (client_Do (world p) api (User cfg) (Token cfg));
               cwd := cwd p |} in
  let p2 := {| world := time_Sleep (world p1) (Second * 2)%Z; cwd := cwd p |} in
  fetchPage cfg uri api reps p =
    after (Log "fetch api: %s") p
      (after (HttpGet api (User cfg) (Token cfg)) p1
         (if Strings.Contains (relation pg) "next"
          then
            after (Log "ratelimit 30/min, sleep for a while") p1
              (after (Sleep (Second * 2)%Z) p2
                 (ret (Continue (target pg) (reps ++ records pg)%list) p2))
          else ret (Break (reps ++ records pg)%list) p1)).
Proof.
  intros Hreq Hdo (Hst & (content & Hbody & Hdec) & Hu & Hr & Hh) p1 p2.
  unfold fetchPage, lg_Printf. rewrite bind_emit, Hreq.
  erewrite bind_step by apply do_request_step.
  rewrite Hdo, Hst. cbn [Z.eqb Pos.eqb negb].
  rewrite (link_of_first_entry rsp Hu Hr Hh).
  rewrite slice_brackets, Hbody.
  unfold parseRepo. rewrite Hdec.
  unfold bind at 1. cbn [ret out final events states nth_error app].
  rewrite append_all_app.
  destruct (Strings.Contains (relation pg) "next"); reflexivity.
Qed.

Lemma requests_wire t : Trace.requests (Trace.wire t) = Trace.requests t.
Proof.
  induction t as [|e t IH]; [reflexivity|].
  destruct e; cbn; now rewrite ?IH.
Qed.

Lemma sleeps_wire t : Trace.sleeps (Trace.wire t) = Trace.sleeps t.
Proof.
  induction t as [|e t IH]; [reflexivity|].
  destruct e; cbn; now rewrite ?IH.
Qed.

Lemma requests_walk api pages :
  List.length (Trace.requests (walk cfg api pages)) = List.length pages.
Proof.
  revert api. induction pages as [|pg rest IH]; intros api; [reflexivity|].
  destruct rest as [|pg' rest']; [reflexivity|].
  change (walk cfg api (pg :: pg' :: rest'))
    with (HttpGet api (User cfg) (Token cfg) :: Sleep (2 * Second)%Z
            :: walk cfg (target pg) (pg' :: rest')).
  cbn [Trace.requests]. change (List.length (pg :: pg' :: rest'))
    with (S (List.length (pg' :: rest'))).
  rewrite <- (IH (target pg)). reflexivity.
Qed.

Lemma sleeps_walk api pages :
  Trace.sleeps (walk cfg api pages)
    = repeat (2 * Second)%Z (List.length pages - 1).
Proof.
  revert api. induction pages as [|pg rest IH]; intros api; [reflexivity|].
  destruct rest as [|pg' rest']; [reflexivity|].
  change (walk cfg api (pg :: pg' :: rest'))
    with (HttpGet api (User cfg) (Token cfg) :: Sleep (2 * Second)%Z
            :: walk cfg (target pg) (pg' :: rest')).
  cbn [Trace.sleeps]. rewrite IH.
  cbn [List.length Nat.sub]. rewrite !Nat.sub_0_r. reflexivity.
Qed.

(** One turn of the loop, then the rest of the loop. *)
Lemma fetchLoop_carries fuel uri api reps p rsp pg :
  http_NewRequest api = None ->
  snd (client_Do (world p) api (User cfg) (Token cfg)) = inr rsp ->
  carries rsp pg ->
  let p1 := {| world := fst (client_Do (world p) api (User cfg) (Token cfg));
               cwd := cwd p |} in
  let p2 := {| world := time_Sleep (world p1) (Second * 2)%Z; cwd := cwd p |} in
  fetchLoop cfg (S fuel) uri api reps p =
    after (Log "fetch api: %s") p
      (after (HttpGet api (User cfg) (Token cfg)) p1
         (if Strings.Contains (relation pg) "next"
          then
            after (Log "ratelimit 30/min, sleep for a while") p1
              (after (Sleep (Second * 2)%Z) p2
                 (fetchLoop cfg fuel uri (target pg) (reps ++ records pg)%list p2))
          else ret (reps ++ records pg)%list p1)).
Proof.
  intros Hreq Hdo Hpg p1 p2. cbn [fetchLoop]. unfold bind.
  rewrite (@fetchPage_carries uri api reps p rsp pg Hreq Hdo Hpg).
  destruct (Strings.Contains (relation pg) "next"); reflexivity.
Qed.

(** The loop over a listing that the server serves page by page. *)
Lemma fetchLoop_serves uri pages :
  forall api reps p fuel,
    pages <> [] ->
    List.length pages <= fuel ->
    serves cfg (world p) api pages ->
    out (fetchLoop cfg fuel uri api reps p)
      = Returns (reps ++ concat (map records pages))%list /\
    Trace.wire (events (fetchLoop cfg fuel uri api reps p)) = walk cfg api pages.
Proof.
  induction pages as [|pg rest IH]; intros api reps p fuel Hne Hfuel Hs;
    [congruence|].
  destruct fuel as [|fuel]; [cbn in Hfuel; lia|].
  cbn [serves] in Hs. destruct Hs as (Hreq & (rsp & Hdo & Hpg) & Hrest).
  rewrite (@fetchLoop_carries fuel uri api reps p rsp pg Hreq Hdo Hpg).
  destruct rest as [|pg' rest'].
  - rewrite Hrest. cbn. rewrite app_nil_r. split; reflexivity.
  - destruct Hrest as [Hnext Hserved]. rewrite Hnext.
    cbn [after ret out final events states app Trace.wire world].
    match goal with |- context [fetchLoop cfg fuel uri ?a ?r ?q] =>
      destruct (IH a r q fuel) as [Ho Hw]
    end.
    + discriminate.
    + cbn in Hfuel. cbn. lia.
    + exact Hserved.
    + rewrite Ho, Hw. split.
      * cbn [map concat]. now rewrite <- app_assoc.
      * reflexivity.
Qed.

(** C6 (amended).  When the server answers the walk with N >= 1 pages,
    each with status 200, a decodable body and a Link header whose FIRST
    entry is [<url>;relation], that first entry being the next link on
    every page but the last, the fetcher returns the records of all the
    pages, in page order and in the order of each page; it makes N
    requests, one per page, and N-1 pauses of two seconds, one between
    two consecutive requests. *)
Theorem fetch_walks_listing uri p pages fuel :
  pages <> [] ->
  List.length pages <= fuel ->
  serves cfg (world p) (github_api ++ uri) pages ->
  let r := fetchApiContent cfg fuel uri p in
  out r = Returns (concat (map records pages)) /\
  Trace.wire (events r) = walk cfg (github_api ++ uri) pages /\
  List.length (Trace.requests (events r)) = List.length pages /\
  Trace.sleeps (events r) = repeat (2 * Second)%Z (List.length pages - 1).
Proof.
  intros Hne Hfuel Hs r. subst r. unfold fetchApiContent.
  destruct (@fetchLoop_serves uri pages (github_api ++ uri) [] p fuel Hne Hfuel Hs)
    as [Ho Hw].
  split; [exact Ho|]. split; [exact Hw|]. split.
  - rewrite <- requests_wire, Hw. apply requests_walk.
  - rewrite <- sleeps_wire, Hw. apply sleeps_walk.
Qed.

(** C7 (amended).  On a response whose Link header has several
    comma-separated entries, the fetcher reads the FIRST entry only: the
    next endpoint is the URL of the first entry, and the walk goes on
    exactly when the relation of the first entry contains [next]; the
    entries after the first comma are never looked at. *)
Theorem fetchPage_first_entry_decides uri api reps p rsp pg :
  http_NewRequest api = None ->
  snd (client_Do (world p) api (User cfg) (Token cfg)) = inr rsp ->
  carries rsp pg ->
  out (fetchPage cfg uri api reps p)
    = Returns (if Strings.Contains (relation pg) "next"
               then Continue (target pg) (reps ++ records pg)%list
               else Break (reps ++ records pg)%list).
Proof.
  intros Hreq Hdo Hpg.
  rewrite (@fetchPage_carries uri api reps p rsp pg Hreq Hdo Hpg).
  destruct (Strings.Contains (relation pg) "next"); reflexivity.
Qed.

(** One turn of the loop once the request is built: the request, then
    the rest of the body of the loop by the answer of the transport. *)
Lemma fetchPage_answer uri api reps p :
  http_NewRequest api = None ->
  let answer := snd (client_Do (world p) api (User cfg) (Token cfg)) in
  let p1 := {| world := fst (client_Do (world p) api (User cfg) (Token cfg));
               cwd := cwd p |} in
  fetchPage cfg uri api reps p =
    after (Log "fetch api: %s") p
      (after (HttpGet api (User cfg) (Token cfg)) p1
         (match answer with
          | inl _ => lg_Fatalf "fetch api %v response error %v"
          | inr rsp =>
              if negb (StatusCode rsp =? 200)%Z
              then lg_Fatalf "fetch api %v response not 200 (status: %v, msg: %v)"
              else
                match link_of rsp with
                | None => do_panic PanicIndexRange
                | Some link =>
                    match link with
                    | [] => do_panic PanicIndexRange
                    | link0 :: _ =>
                        match Strings.slice link0 1 (Strings.len link0 - 1) with
                        | None => do_panic PanicSliceBounds
                        | Some api' =>
                            match Body rsp with
                            | None => do_panic PanicReadAll
                            | Some content =>
                                page <- parseRepo content ;;
                                match nth_error link 1 with
                                | None => do_panic PanicIndexRange
                                | Some link1 =>
                                    if negb (Strings.Contains link1 "next")
                                    then ret (Break (append_all reps page))
                                    else
                                      lg_Printf "ratelimit 30/min, sleep for a while" ;;;
                                      do_sleep (Second * 2)%Z ;;;
                                      ret (Continue api' (append_all reps page))
                                end
                            end
                        end
                    end
                end
          end p1)).
Proof.
  intros Hreq answer p1. subst answer p1.
  unfold fetchPage, lg_Printf. rewrite bind_emit, Hreq.
  erewrite bind_step by apply do_request_step. reflexivity.
Qed.

(** C1 (what the program does).  When the first response has status 200
    and no Link header, the fetcher panics on the slice
    [link[0][1 : len(link[0])-1]], whose bounds are 1 and -1, after one
    request and before it reads the body: it returns no records. *)
Theorem fetch_without_link_header_panics uri p rsp fuel :
  http_NewRequest (github_api ++ uri) = None ->
  snd (client_Do (world p) (github_api ++ uri) (User cfg) (Token cfg)) = inr rsp ->
  StatusCode rsp = 200%Z ->
  Header_Get (Header rsp) "Link" = EmptyString ->
  let r := fetchApiContent cfg (S fuel) uri p in
  out r = Panics PanicSliceBounds /\
  events r = [Log "fetch api: %s";
              HttpGet (github_api ++ uri) (User cfg) (Token cfg)].
Proof.
  intros Hreq Hdo Hst Hh r. subst r.
  unfold fetchApiContent. cbn [fetchLoop]. unfold bind.
  rewrite (@fetchPage_answer uri (github_api ++ uri) [] p Hreq).
  rewrite Hdo, Hst. unfold link_of. rewrite Hh. split; reflexivity.
Qed.

(** A turn on an answer with status 200: it returns, to go on or to end
    the walk, when the response is one the loop can read, and panics
    right after the request when it is not. *)
Lemma fetchPage_accepted uri api reps p rsp :
  http_NewRequest api = None ->
  snd (client_Do (world p) api (User cfg) (Token cfg)) = inr rsp ->
  StatusCode rsp = 200%Z ->
  let t := fetchPage cfg uri api reps p in
  (parsable rsp /\ exists next, out t = Returns next) \/
  (~ parsable rsp /\
   (exists e, out t = Panics e) /\
   events t = [Log "fetch api: %s"; HttpGet api (User cfg) (Token cfg)]).
Proof.
  intros Hreq Hdo Hst t. subst t.
  rewrite (@fetchPage_answer uri api reps p Hreq), Hdo, Hst.
  cbn [Z.eqb Pos.eqb negb after out events].
  unfold parsable, linked, readable.
  destruct (link_of rsp) as [[|link0 [|link1 rest]]|].
  - right. split; [intros [(l0 & l1 & l & E & _) _]; discriminate E|].
    split; [eexists|]; reflexivity.
  - right. split; [intros [(l0 & l1 & l & E & _) _]; discriminate E|].
    destruct (Strings.slice _ _ _); [|split; [eexists|]; reflexivity].
    destruct (Body rsp) as [content|]; [|split; [eexists|]; reflexivity].
    unfold parseRepo, bind.
    destruct (json_Unmarshal content); split; try eexists; reflexivity.
  - destruct (le_lt_dec 2 (String.length link0)) as [Hlong|Hshort].
    + destruct (slice_long link0 Hlong) as [api' ->].
      destruct (Body rsp) as [content|].
      * unfold parseRepo, bind.
        destruct (json_Unmarshal content) as [recs|] eqn:Hdec.
        -- left. split.
           ++ split; [exists link0, link1, rest | exists content, recs];
                split; assumption || reflexivity.
           ++ cbn [ret out nth_error]. destruct (Strings.Contains link1 "next");
                cbn [negb]; eexists; reflexivity.
        -- right. split.
           ++ intros [_ (c & r & Ec & Ed)].
              injection Ec as <-. rewrite Hdec in Ed. discriminate Ed.
           ++ split; [eexists|]; reflexivity.
      * right. split; [intros [_ (c & r & Ec & _)]; discriminate Ec|].
        split; [eexists|]; reflexivity.
    + rewrite (slice_short link0 Hshort). right. split.
      * intros [(l0 & l1 & l & E & Hl) _]. injection E as <- _ _. lia.
      * split; [eexists|]; reflexivity.
  - right. split; [intros [(l0 & l1 & l & E & _) _]; discriminate E|].
    split; [eexists|]; reflexivity.
Qed.

(** C8 (amended).  A turn whose request could be built ends the process
    in [lg.Fatalf] if and only if the transport returns an error or the
    status is not 200; when it does, the walk ends right there: the
    request is not tried again, nothing follows the fatal log line, and
    the records gathered so far are not returned.  A status 200 is the
    only one accepted, and the turn then goes on to the Link header and
    the body: it returns (to go on with the next page or to end the walk)
    if and only if the response can be gone through, and it panics
    otherwise, which ends the process as well, right after the request
    and with no record returned; when the Link header has a first entry
    that can be indexed, the turn returns if and only if the body reads
    and decodes.  So a turn ends the process, one way or the other, if
    and only if the answer is an error, a status other than 200, or a
    response that cannot be gone through. *)
Theorem fetchPage_fatal_iff uri api reps p fuel :
  http_NewRequest api = None ->
  let answer := snd (client_Do (world p) api (User cfg) (Token cfg)) in
  let t := fetchPage cfg uri api reps p in
  let r := fetchLoop cfg (S fuel) uri api reps p in
  (is_fatal (out t) <-> refused answer) /\
  (refused answer ->
     is_fatal (out r) /\
     Trace.requests (events r) = [api] /\
     exists format,
       events r = [Log "fetch api: %s";
                   HttpGet api (User cfg) (Token cfg);
                   Log format]) /\
  (forall rsp, answer = inr rsp -> StatusCode rsp = 200%Z ->
     (parsable rsp <-> exists next, out t = Returns next) /\
     (~ parsable rsp <-> exists e, out t = Panics e) /\
     (~ parsable rsp ->
        (exists e, out r = Panics e) /\
        events r = [Log "fetch api: %s"; HttpGet api (User cfg) (Token cfg)]) /\
     (linked rsp ->
        (readable rsp <-> exists next, out t = Returns next) /\
        (~ readable rsp <-> exists e, out t = Panics e))) /\
  (ends_process (out t) <->
     refused answer \/ exists rsp, answer = inr rsp /\ ~ parsable rsp).
Proof.
  intros Hreq answer t r.
  pose proof (@fetchPage_answer uri api reps p Hreq) as Hturn.
  cbn zeta in Hturn. fold answer in Hturn. fold t in Hturn.
  assert (Hfatal : is_fatal (out t) <-> refused answer).
  { rewrite Hturn. clear Hturn. cbn [after out].
    destruct answer as [err|rsp]; cbn [refused].
    + cbn. tauto.
    + destruct (Z.eqb_spec (StatusCode rsp) 200) as [E|N]; cbn [negb].
      * split; [|intros N; now elim N]. intros Hf. exfalso. revert Hf.
        destruct (link_of rsp) as [[|link0 [|link1 link]]|]; cbn; auto;
          destruct (Strings.slice _ _ _); cbn; auto;
          destruct (Body rsp) as [content|]; cbn; auto;
          unfold parseRepo, bind;
          destruct (json_Unmarshal content) as [page|]; cbn; auto.
        destruct (Strings.Contains link1 "next"); cbn; auto.
      * cbn. tauto. }
  assert (Hloop : forall e, out t = Panics e -> out r = Panics e /\ events r = events t).
  { intros e He. subst r. cbn [fetchLoop]. unfold bind. fold t. rewrite He.
    split; reflexivity. }
  assert (H200 : forall rsp, answer = inr rsp -> StatusCode rsp = 200%Z ->
            (parsable rsp /\ exists next, out t = Returns next) \/
            (~ parsable rsp /\ (exists e, out t = Panics e) /\
             events t = [Log "fetch api: %s"; HttpGet api (User cfg) (Token cfg)])).
  { intros rsp Ha Hst. exact (@fetchPage_accepted uri api reps p rsp Hreq Ha Hst). }
  split; [exact Hfatal|]. split; [|split].
  - intros Href. subst r. cbn [fetchLoop]. unfold bind. fold t.
    rewrite Hturn. destruct answer as [err|rsp]; cbn [refused] in Href.
    + cbn. split; [exact I|]. split; [reflexivity|]. eexists; reflexivity.
    + apply Z.eqb_neq in Href. rewrite Href.
      cbn. split; [exact I|]. split; [reflexivity|]. eexists; reflexivity.
  - intros rsp Ha Hst.
    destruct (H200 rsp Ha Hst) as [[Hp [next Hn]] | (Hnp & [e He] & Hev)].
    + split; [|split; [|split]].
      * split; [intros _; now exists next | intros _; exact Hp].
      * split; [intros N; now elim N | intros [e He]; rewrite Hn in He; discriminate He].
      * intros N. now elim N.
      * intros _. split.
        -- split; [intros _; now exists next | intros _; exact (proj2 Hp)].
        -- split; [intros N; elim N; exact (proj2 Hp)
                  | intros [e He]; rewrite Hn in He; discriminate He].
    + split; [|split; [|split]].
      * split; [intros Hp; now elim Hnp | intros [next Hn]; rewrite He in Hn; discriminate Hn].
      * split; [intros _; now exists e | intros _; exact Hnp].
      * intros _. destruct (Hloop e He) as [Ho Hevr].
        split; [now exists e | now rewrite Hevr].
      * intros Hlinked. split.
        -- split; [intros Hr; elim Hnp; now split
                  | intros [next Hn]; rewrite He in Hn; discriminate Hn].
        -- split; [intros _; now exists e | intros _ Hr; elim Hnp; now split].
  - split.
    + intros Hend.
      destruct answer as [err|rsp] eqn:Ha; [left; exact I|].
      destruct (Z.eq_dec (StatusCode rsp) 200) as [Hst|Hst]; [|left; exact Hst].
      right. exists rsp. split; [reflexivity|].
      destruct (H200 rsp eq_refl Hst) as [[_ [next Hn]] | (Hnp & _)]; [|exact Hnp].
      rewrite Hn in Hend. now elim Hend.
    + intros [Href | (rsp & Ha & Hnp)].
      * apply Hfatal in Href. destruct (out t); cbn in Href |- *; auto.
      * destruct (Z.eq_dec (StatusCode rsp) 200) as [Hst|Hst].
        -- destruct (H200 rsp Ha Hst) as [[Hp _] | (_ & [e He] & _)]; [now elim Hnp|].
           rewrite He. exact I.
        -- assert (Href : refused answer) by (rewrite Ha; exact Hst).
           apply Hfatal in Href. destruct (out t); cbn in Href |- *; auto.
Qed.

(** *** More on the command runner *)

Lemma runs_app t1 t2 : Trace.runs (t1 ++ t2) = (Trace.runs t1 ++ Trace.runs t2)%list.
Proof.
  induction t1 as [|e t1 IH]; [reflexivity|].
  destruct e; cbn; now rewrite ?IH.
Qed.

Lemma sleeps_app t1 t2 :
  Trace.sleeps (t1 ++ t2) = (Trace.sleeps t1 ++ Trace.sleeps t2)%list.
Proof.
  induction t1 as [|e t1 IH]; [reflexivity|].
  destruct e; cbn; now rewrite ?IH.
Qed.

Lemma local_app t1 t2 : Calls.local (t1 ++ t2) = (Calls.local t1 ++ Calls.local t2)%list.
Proof.
  induction t1 as [|e t1 IH]; [reflexivity|].
  destruct e; cbn; now rewrite ?IH.
Qed.

Lemma sleeps_retry_rounds n name arg :
  Trace.sleeps (retry_rounds n name arg) = repeat (200 * Millisecond)%Z n.
Proof. induction n as [|n IH]; [reflexivity|]. cbn. now rewrite IH. Qed.

Lemma local_retry_rounds n name arg :
  Calls.local (retry_rounds n name arg) = repeat (Run name arg) n.
Proof. induction n as [|n IH]; [reflexivity|]. cbn. now rewrite IH. Qed.

Lemma repeat_snoc {A} (x : A) n : (repeat x n ++ [x])%list = repeat x (S n).
Proof. induction n as [|n IH]; [reflexivity|]. cbn. now rewrite IH. Qed.

(** X1.  Whatever the system answers, [doExec] returns to its caller and
    leaves the working directory as it was; it runs the one command it was
    given, at least once and at most 20 times, and calls nothing else of
    the file system; it pauses 200 ms after each run that it retries and
    only then: with [k] pauses there are [k+1] runs, or 20 runs when all 20
    attempts were retried. *)
Theorem doExec_is_bounded name arg p :
  let r := doExec name arg p in
  out r = Returns tt /\
  cwd (final r) = cwd p /\
  exists k,
    k <= 20 /\
    Trace.sleeps (events r) = repeat (200 * Millisecond)%Z k /\
    Trace.runs (events r) = repeat (name, arg) (if (k <? 20)%nat then S k else k) /\
    Calls.local (events r) = repeat (Run name arg) (if (k <? 20)%nat then S k else k).
Proof.
  intros r. subst r.
  destruct (doExec_shape name arg p) as (Ho & Hc & _).
  split; [exact Ho|]. split; [exact Hc|].
  destruct (doExec_loop_rounds 20 name arg p) as (k & Hk & Hev).
  fold (doExec name arg) in Hev.
  exists k. split; [exact Hk|]. rewrite Hev.
  rewrite sleeps_app, runs_app, local_app.
  rewrite sleeps_retry_rounds, runs_retry_rounds, local_retry_rounds.
  destruct (k <? 20)%nat.
  - cbn [Trace.sleeps Trace.runs Calls.local].
    rewrite app_nil_r, !repeat_snoc. repeat split.
  - cbn [Trace.sleeps Trace.runs Calls.local]. rewrite !app_nil_r. repeat split.
Qed.

Lemma doExec_loop_settles k :
  forall n name arg p,
    k < n ->
    settles_after k (world p) (cwd p) name arg ->
    out (doExec_loop n name arg p) = Returns tt /\
    events (doExec_loop n name arg p)
      = (retry_rounds k name arg ++ [Run name arg])%list.
Proof.
  induction k as [|k IH]; intros n name arg p Hlt Hs.
  - destruct n as [|n]; [lia|]. cbn [settles_after] in Hs.
    rewrite doExec_loop_turn, Hs. split; reflexivity.
  - destruct n as [|n]; [lia|]. cbn [settles_after] in Hs.
    destruct Hs as [Ht Hrest].
    rewrite doExec_loop_turn, Ht.
    cbn [after out events retry_rounds retry_round app].
    match goal with |- context [doExec_loop n name arg ?q] =>
      destruct (IH n name arg q) as [Ho Hev]; [lia|exact Hrest|]
    end.
    rewrite Ho, Hev. split; reflexivity.
Qed.

(** X2.  When the first [k] attempts of a command fail transiently
    ([k < 20]) and the attempt after them does not (it succeeds, exits with
    status 1 or carries the takedown marker), [doExec] makes exactly these
    [k+1] runs: [k] rounds of run, two log lines and pause, then the last
    run, after which it returns at once. *)
Theorem doExec_stops_at_first_settled name arg p k :
  k < 20 ->
  settles_after k (world p) (cwd p) name arg ->
  out (doExec name arg p) = Returns tt /\
  events (doExec name arg p) = (retry_rounds k name arg ++ [Run name arg])%list /\
  List.length (Trace.runs (events (doExec name arg p))) = S k.
Proof.
  intros Hlt Hs.
  destruct (@doExec_loop_settles k 20 name arg p Hlt Hs) as [Ho Hev].
  fold (doExec name arg) in Ho, Hev.
  split; [exact Ho|]. split; [exact Hev|].
  rewrite Hev, runs_app, runs_retry_rounds, length_app, repeat_length.
  cbn. lia.
Qed.

Lemma write_all_bytes chunks :
  forall p, c (write_all p chunks) = c p ++ all_bytes chunks.
Proof.
  unfold write_all.
  induction chunks as [|data chunks IH]; intros p; cbn.
  - now rewrite append_nil_r.
  - rewrite IH. cbn. now rewrite append_assoc.
Qed.

(** X3.  The tee of a command's output loses and adds nothing: after any
    sequence of writes the buffer holds its former content followed by the
    bytes of all the chunks in order, the byte counts returned add up to
    the number of bytes written, and the console received one line per
    chunk (not per line of output). *)
Theorem Write_all_captures TrimSpace chunks :
  forall p console,
    let '(p', console', n) := Write_all TrimSpace p console chunks in
    pipeWriter_String p' = pipeWriter_String p ++ all_bytes chunks /\
    n = Strings.len (all_bytes chunks) /\
    List.length console' = List.length console + List.length chunks.
Proof.
  induction chunks as [|data chunks IH]; intros p console.
  - cbn. rewrite append_nil_r. repeat split. lia.
  - cbn [Write_all Write].
    match goal with |- context [Write_all TrimSpace ?q ?cs chunks] =>
      specialize (IH q cs);
      destruct (Write_all TrimSpace q cs chunks) as [[p' console'] m]
    end.
    destruct IH as (Hbuf & Hn & Hlen).
    split; [|split].
    + rewrite Hbuf. unfold pipeWriter_String. cbn. now rewrite append_assoc.
    + rewrite Hn. unfold Strings.len. cbn [all_bytes fold_right].
      rewrite length_append. fold (all_bytes chunks). lia.
    + rewrite Hlen, length_app. cbn. lia.
Qed.

(** X4.  What [doExec] reads in the standard error of a run is the bytes
    of its chunks joined in order: two runs that returned the same error
    and wrote the same bytes are classified alike, however the bytes were
    cut into writes (a marker that straddles two writes is found). *)
Theorem classification_ignores_chunking (r r' : RunResult) :
  run_err r = run_err r' ->
  all_bytes (stderr_writes r) = all_bytes (stderr_writes r') ->
  captured_stderr r = all_bytes (stderr_writes r) /\
  captured_stderr r' = captured_stderr r /\
  transient r' = transient r.
Proof.
  intros Herr Hbytes.
  assert (Hcap : forall x, captured_stderr x = all_bytes (stderr_writes x)).
  { intros x. unfold captured_stderr, pipeWriter_String.
    now rewrite write_all_bytes. }
  split; [apply Hcap|].
  assert (Hsame : captured_stderr r' = captured_stderr r)
    by now rewrite !Hcap, Hbytes.
  split; [exact Hsame|].
  unfold transient. now rewrite Herr, Hsame.
Qed.

(** *** More on the fetcher *)

(** The four ways a turn of the loop can go, with the events of each. *)
Lemma fetchPage_shape uri api reps p :
  let r := fetchPage cfg uri api reps p in
  let get := HttpGet api (User cfg) (Token cfg) in
  (events r = [Log "fetch api: %s"] /\ out r = Panics PanicNewRequest) \/
  (events r = [Log "fetch api: %s"; get] /\
   ((exists reps', out r = Returns (Break reps')) \/ exists e, out r = Panics e)) \/
  (exists format,
     events r = [Log "fetch api: %s"; get; Log format] /\ out r = Fatal format) \/
  (exists api' reps',
     events r = [Log "fetch api: %s"; get;
                 Log "ratelimit 30/min, sleep for a while"; Sleep (Second * 2)%Z] /\
     out r = Returns (Continue api' reps')).
Proof.
  intros r get. subst r get.
  destruct (http_NewRequest api) as [e|] eqn:Hreq.
  - left. unfold fetchPage, lg_Printf. rewrite bind_emit, Hreq. split; reflexivity.
  - right. rewrite (@fetchPage_answer uri api reps p Hreq).
    cbn [after out events].
    destruct (snd (client_Do (world p) api (User cfg) (Token cfg))) as [err|rsp].
    + right. left. eexists. split; reflexivity.
    + destruct (StatusCode rsp =? 200)%Z; cbn [negb].
      2: { right. left. eexists. split; reflexivity. }
      destruct (link_of rsp) as [[|link0 [|link1 link]]|];
        try (left; split; [reflexivity | right; eexists; reflexivity]);
        (destruct (Strings.slice _ _ _);
         [|left; split; [reflexivity | right; eexists; reflexivity]]);
        (destruct (Body rsp) as [content|];
         [|left; split; [reflexivity | right; eexists; reflexivity]]);
        unfold parseRepo, bind;
        (destruct (json_Unmarshal content) as [page|];
         [|left; split; [reflexivity | right; eexists; reflexivity]]).
      * left. split; [reflexivity | right; eexists; reflexivity].
      * cbn [nth_error]. destruct (Strings.Contains link1 "next"); cbn [negb].
        -- right. right. eexists. eexists. split; reflexivity.
        -- left. split; [reflexivity | left; eexists; reflexivity].
Qed.

(** The loop after a turn, by the outcome of the turn. *)
Lemma fetchLoop_after_turn fuel uri api reps p :
  let t := fetchPage cfg uri api reps p in
  let r := fetchLoop cfg (S fuel) uri api reps p in
  match out t with
  | Returns (Continue api' reps') =>
      out r = out (fetchLoop cfg fuel uri api' reps' (final t)) /\
      events r = (events t ++ events (fetchLoop cfg fuel uri api' reps' (final t)))%list
  | Returns (Break reps') => out r = Returns reps' /\ events r = events t
  | Fatal format => out r = Fatal format /\ events r = events t
  | Panics e => out r = Panics e /\ events r = events t
  | OutOfFuel => out r = OutOfFuel /\ events r = events t
  end.
Proof.
  intros t r. subst t r. cbn [fetchLoop]. unfold bind.
  destruct (out (fetchPage cfg uri api reps p)) as [[api' reps'|reps']| | |];
    cbn [out events ret]; rewrite ?app_nil_r; split; reflexivity.
Qed.

Lemma requests_app t1 t2 :
  Trace.requests (t1 ++ t2) = (Trace.requests t1 ++ Trace.requests t2)%list.
Proof.
  induction t1 as [|e t1 IH]; [reflexivity|].
  destruct e; cbn; now rewrite ?IH.
Qed.

Lemma fetchLoop_paced fuel uri :
  forall api reps p,
    let r := fetchLoop cfg fuel uri api reps p in
    Calls.paced true (events r) = true /\
    Calls.credentialed cfg (events r) = true /\
    Calls.local (events r) = [].
Proof.
  induction fuel as [|fuel IH]; intros api reps p r; subst r.
  - repeat split.
  - pose proof (fetchLoop_after_turn fuel uri api reps p) as Hloop.
    cbn zeta in Hloop.
    destruct (fetchPage_shape uri api reps p)
      as [[Hev Ho] | [[Hev [[reps' Ho] | [e Ho]]] | [(f & Hev & Ho) | (api' & reps' & Hev & Ho)]]];
      rewrite Ho in Hloop; destruct Hloop as [_ Hevents]; rewrite Hevents, Hev.
    + repeat split.
    + cbn. rewrite !String.eqb_refl. repeat split.
    + cbn. rewrite !String.eqb_refl. repeat split.
    + cbn. rewrite !String.eqb_refl. repeat split.
    + destruct (IH api' reps' (final (fetchPage cfg uri api reps p)))
        as (Hp & Hc & Hl).
      cbn [app Calls.paced Calls.credentialed Calls.local andb].
      rewrite !String.eqb_refl, Hp, Hc, Hl. repeat split.
Qed.

(** X5.  Whatever the server answers and however the walk ends, the
    fetcher only logs, requests and pauses: it calls nothing of the file
    system and runs no command; every request carries the user and the
    token of the configuration; every pause lasts two seconds; and it never
    makes two requests without a pause between them. *)
Theorem fetch_is_paced fuel uri p :
  let r := fetchApiContent cfg fuel uri p in
  Calls.paced true (events r) = true /\
  Calls.credentialed cfg (events r) = true /\
  Calls.local (events r) = [].
Proof. apply fetchLoop_paced. Qed.

Lemma fetchLoop_counts fuel uri :
  forall api reps p,
    let r := fetchLoop cfg fuel uri api reps p in
    let gets := List.length (Trace.requests (events r)) in
    let naps := List.length (Trace.sleeps (events r)) in
    gets <= fuel /\
    naps <= gets <= S naps /\
    ((exists reps', out r = Returns reps') -> gets = S naps) /\
    (is_fatal (out r) -> gets = S naps) /\
    (out r = OutOfFuel -> gets = fuel /\ naps = fuel).
Proof.
  induction fuel as [|fuel IH]; intros api reps p r gets naps; subst r gets naps.
  - cbn. repeat split; try lia; try (intros [x Hx]; discriminate);
      try (intros F; now elim F).
  - pose proof (fetchLoop_after_turn fuel uri api reps p) as Hloop.
    cbn zeta in Hloop.
    destruct (fetchPage_shape uri api reps p)
      as [[Hev Ho] | [[Hev [[reps' Ho] | [e Ho]]] | [(f & Hev & Ho) | (api' & reps' & Hev & Ho)]]];
      rewrite Ho in Hloop; destruct Hloop as [Hout Hevents];
      rewrite Hevents, Hout; try rewrite Hev.
    + cbn. repeat split; try lia; try (intros [x Hx]; discriminate);
        try (intros F; now elim F); discriminate.
    + cbn. repeat split; try lia; discriminate.
    + cbn. repeat split; try lia; try (intros [x Hx]; discriminate);
        try (intros F; now elim F); discriminate.
    + cbn. repeat split; try lia; discriminate.
    + destruct (IH api' reps' (final (fetchPage cfg uri api reps p)))
        as (Hle & Hbetween & Hret & Hfat & Hfuel).
      rewrite requests_app, sleeps_app, !length_app. cbn [Trace.requests Trace.sleeps List.length].
      split; [lia|]. split; [lia|]. split; [|split].
      * intros Hr. specialize (Hret Hr). lia.
      * intros Hf. specialize (Hfat Hf). lia.
      * intros Hf. specialize (Hfuel Hf). lia.
Qed.

(** X6.  Requests and pauses of a walk, whatever the server answers: with
    fuel for [n] turns the fetcher makes at most [n] requests; it has made
    one request more than pauses when it returns its records and when it
    ends in [lg.Fatalf]; and as many of each as the fuel allows when the
    server never stops giving next links. *)
Theorem fetch_counts fuel uri p :
  let r := fetchApiContent cfg fuel uri p in
  let gets := List.length (Trace.requests (events r)) in
  let naps := List.length (Trace.sleeps (events r)) in
  gets <= fuel /\
  naps <= gets <= S naps /\
  ((exists reps, out r = Returns reps) -> gets = S naps) /\
  (is_fatal (out r) -> gets = S naps) /\
  (out r = OutOfFuel -> gets = fuel /\ naps = fuel).
Proof. apply fetchLoop_counts. Qed.

Lemma fetchLoop_loops uri api pg :
  loops_on cfg api pg ->
  forall fuel reps p,
    out (fetchLoop cfg fuel uri api reps p) = OutOfFuel /\
    List.length (Trace.requests (events (fetchLoop cfg fuel uri api reps p))) = fuel.
Proof.
  intros (Hreq & Htarget & Hnext & Hserve).
  induction fuel as [|fuel IH]; intros reps p; [split; reflexivity|].
  destruct (Hserve (world p)) as (rsp & Hdo & Hpg).
  rewrite (@fetchLoop_carries fuel uri api reps p rsp pg Hreq Hdo Hpg).
  rewrite Hnext, Htarget. cbn [after out events Trace.requests List.length].
  match goal with |- context [fetchLoop cfg fuel uri api ?r ?q] =>
    destruct (IH r q) as [Ho Hn] end.
  rewrite Ho, Hn. split; reflexivity.
Qed.

(** X7.  The walk has no bound of its own and does not notice a cycle:
    against a server whose page names itself as the next page, the fetcher
    goes on for as many turns as it is given, one request per turn, and
    returns nothing. *)
Theorem fetch_follows_a_cycle_forever uri pg fuel p :
  loops_on cfg (github_api ++ uri) pg ->
  let r := fetchApiContent cfg fuel uri p in
  out r = OutOfFuel /\
  List.length (Trace.requests (events r)) = fuel.
Proof.
  intros Hloop r. subst r. unfold fetchApiContent.
  exact (@fetchLoop_loops uri (github_api ++ uri) pg Hloop fuel [] p).
Qed.

(** The loop on a request that the transport refuses. *)
Lemma fetchLoop_refused fuel uri api reps p :
  http_NewRequest api = None ->
  refused (snd (client_Do (world p) api (User cfg) (Token cfg))) ->
  exists format,
    out (fetchLoop cfg (S fuel) uri api reps p) = Fatal format /\
    events (fetchLoop cfg (S fuel) uri api reps p)
      = [Log "fetch api: %s"; HttpGet api (User cfg) (Token cfg); Log format].
Proof.
  intros Hreq Href. cbn [fetchLoop]. unfold bind.
  rewrite (@fetchPage_answer uri api reps p Hreq).
  destruct (snd (client_Do (world p) api (User cfg) (Token cfg))) as [err|rsp];
    cbn [refused] in Href.
  - eexists. split; reflexivity.
  - apply Z.eqb_neq in Href. rewrite Href. eexists. split; reflexivity.
Qed.

Lemma fetchLoop_breaks uri pages :
  forall api reps p fuel,
    List.length pages < fuel ->
    breaks_after cfg (world p) api pages ->
    let r := fetchLoop cfg fuel uri api reps p in
    is_fatal (out r) /\
    List.length (Trace.requests (events r)) = S (List.length pages) /\
    List.length (Trace.sleeps (events r)) = List.length pages.
Proof.
  induction pages as [|pg rest IH]; intros api reps p fuel Hfuel Hb r; subst r;
    (destruct fuel as [|fuel]; [cbn in Hfuel; lia|]).
  - destruct Hb as [Hreq Href].
    destruct (@fetchLoop_refused fuel uri api reps p Hreq Href) as (f & Ho & Hev).
    rewrite Ho, Hev. repeat split.
  - cbn [breaks_after] in Hb. destruct Hb as (Hreq & (rsp & Hdo & Hpg) & Hnext & Hrest).
    rewrite (@fetchLoop_carries fuel uri api reps p rsp pg Hreq Hdo Hpg), Hnext.
    cbn [after out events Trace.requests Trace.sleeps List.length world].
    match goal with |- context [fetchLoop cfg fuel uri ?a ?r ?q] =>
      destruct (IH a r q fuel) as (Hf & Hg & Hn)
    end.
    + cbn in Hfuel. lia.
    + exact Hrest.
    + rewrite Hg, Hn. repeat split. exact Hf.
Qed.

(** X8.  A walk that fails on a later page returns nothing of the pages
    before it: when the server answers [k] pages, each with a next link
    first, and then refuses the next request (a transport error or a status
    other than 200), the fetcher ends in [lg.Fatalf] after [k+1] requests
    and [k] pauses, and the records of the [k] pages go nowhere. *)
Theorem fetch_fails_whole uri p pages fuel :
  List.length pages < fuel ->
  breaks_after cfg (world p) (github_api ++ uri) pages ->
  let r := fetchApiContent cfg fuel uri p in
  is_fatal (out r) /\
  List.length (Trace.requests (events r)) = S (List.length pages) /\
  List.length (Trace.sleeps (events r)) = List.length pages.
Proof.
  intros Hfuel Hb. unfold fetchApiContent.
  exact (@fetchLoop_breaks uri pages (github_api ++ uri) [] p fuel Hfuel Hb).
Qed.

(** X9.  A Link header that holds neither a comma nor a semicolon (none at
    all, or a bare target without its relation) makes the fetcher panic on
    its first page: on the slice of [link[0]] when the header has fewer
    than two bytes, before the body is read; on [link[1]] otherwise, after
    the body was read and decoded.  No record is returned either way. *)
Theorem fetch_panics_on_bare_header uri p rsp fuel :
  http_NewRequest (github_api ++ uri) = None ->
  snd (client_Do (world p) (github_api ++ uri) (User cfg) (Token cfg)) = inr rsp ->
  StatusCode rsp = 200%Z ->
  clean (Header_Get (Header rsp) "Link") ->
  let h := Header_Get (Header rsp) "Link" in
  let r := fetchApiContent cfg (S fuel) uri p in
  (String.length h < 2 -> out r = Panics PanicSliceBounds) /\
  (2 <= String.length h ->
   forall content page,
     Body rsp = Some content ->
     json_Unmarshal content = Some page ->
     out r = Panics PanicIndexRange).
Proof.
  intros Hreq Hdo Hst [Hcomma Hsemi] h r. subst r.
  assert (Hlink : link_of rsp = Some [h]).
  { unfold link_of, Strings.Split. fold h.
    rewrite (split_from_free_end "," h EmptyString Hcomma). cbn [append].
    now rewrite (split_from_free_end ";" h EmptyString Hsemi). }
  split; [intros Hlen | intros Hlen content page Hbody Hdec];
    unfold fetchApiContent; cbn [fetchLoop]; unfold bind at 1;
    rewrite (@fetchPage_answer uri (github_api ++ uri) [] p Hreq);
    rewrite Hdo, Hst, Hlink.
  - rewrite (slice_short h Hlen). reflexivity.
  - destruct (slice_long h Hlen) as [api Hapi]. rewrite Hapi, Hbody.
    unfold parseRepo. rewrite Hdec. reflexivity.
Qed.

(** X10.  A page whose body cannot be read, or does not decode to a list
    of repositories, makes the fetcher panic, on whichever page of the walk
    it comes: the records gathered on the pages before are not returned. *)
Theorem fetch_panics_on_bad_body fuel uri api reps p rsp url rel :
  http_NewRequest api = None ->
  snd (client_Do (world p) api (User cfg) (Token cfg)) = inr rsp ->
  StatusCode rsp = 200%Z ->
  clean url -> clean rel ->
  first_entry url rel (Header_Get (Header rsp) "Link") ->
  let r := fetchLoop cfg (S fuel) uri api reps p in
  (Body rsp = None -> out r = Panics PanicReadAll) /\
  (forall content,
     Body rsp = Some content ->
     json_Unmarshal content = None ->
     out r = Panics PanicUnmarshal).
Proof.
  intros Hreq Hdo Hst Hu Hr Hh r. subst r.
  split; [intros Hbody | intros content Hbody Hdec];
    cbn [fetchLoop]; unfold bind at 1;
    rewrite (@fetchPage_answer uri api reps p Hreq);
    rewrite Hdo, Hst, (link_of_first_entry rsp Hu Hr Hh), slice_brackets, Hbody.
  - reflexivity.
  - unfold parseRepo. rewrite Hdec. reflexivity.
Qed.

(** *** More on the reconciler *)

Lemma stats_ops t : Calls.stats (Trace.ops t) = Calls.stats t.
Proof.
  induction t as [|e t IH]; [reflexivity|].
  destruct e; cbn; now rewrite ?IH.
Qed.

Lemma requests_ops t : Trace.requests (Trace.ops t) = Trace.requests t.
Proof.
  induction t as [|e t IH]; [reflexivity|].
  destruct e; cbn; now rewrite ?IH.
Qed.

Lemma stats_app t1 t2 : Calls.stats (t1 ++ t2) = (Calls.stats t1 ++ Calls.stats t2)%list.
Proof.
  induction t1 as [|e t1 IH]; [reflexivity|].
  destruct e; cbn; now rewrite ?IH.
Qed.

Lemma stats_runs name arg k : Calls.stats (repeat (Run name arg) k) = [].
Proof. induction k as [|k IH]; [reflexivity | exact IH]. Qed.

Lemma requests_runs name arg k : Trace.requests (repeat (Run name arg) k) = [].
Proof. induction k as [|k IH]; [reflexivity | exact IH]. Qed.

(** A pass on a machine where no directory creation fails. *)
Lemma syncRepo_returns rootDir repo p :
  (forall w wd path perm, snd (os_MkdirAll w wd path perm) = None) ->
  out (syncRepo rootDir repo p) = Returns tt /\
  Calls.stats (events (syncRepo rootDir repo p)) = [localDir rootDir repo] /\
  Trace.requests (events (syncRepo rootDir repo p)) = [].
Proof.
  intros Hmk.
  destruct (snd (os_Stat (world p) (cwd p) (localDir rootDir repo))) as [e|] eqn:Hst.
  - destruct (@syncRepo_stat_error rootDir repo p e Hst) as [_ Hok].
    destruct (Hok (Hmk _ _ _ _)) as (Ho & _ & k & _ & Hops).
    split; [exact Ho|].
    rewrite <- stats_ops, <- requests_ops, Hops. unfold git_clone.
    cbn [Calls.stats Trace.requests]. rewrite stats_runs, requests_runs.
    split; reflexivity.
  - destruct (@syncRepo_stat_ok rootDir repo p Hst) as (Ho & _ & k & m & _ & _ & Hops).
    split; [exact Ho|].
    rewrite <- stats_ops, <- requests_ops, Hops. unfold git_reset, git_pull.
    cbn [Calls.stats Trace.requests].
    rewrite stats_app, requests_app, !stats_runs, !requests_runs.
    split; reflexivity.
Qed.

Lemma for_each_returns rootDir repos :
  (forall w wd path perm, snd (os_MkdirAll w wd path perm) = None) ->
  forall p,
    out (for_each repos (syncRepo rootDir) p) = Returns tt /\
    Calls.stats (events (for_each repos (syncRepo rootDir) p))
      = map (localDir rootDir) repos /\
    Trace.requests (events (for_each repos (syncRepo rootDir) p)) = [].
Proof.
  intros Hmk. induction repos as [|repo repos IH]; intros p.
  - repeat split.
  - destruct (syncRepo_returns rootDir repo p Hmk) as (Ho & Hs & Hr).
    cbn [for_each]. rewrite (bind_returns _ _ p Ho). cbn [out events].
    destruct (IH (final (syncRepo rootDir repo p))) as (Ho' & Hs' & Hr').
    rewrite stats_app, requests_app, Hs, Hr, Hs', Hr', Ho'.
    repeat split.
Qed.

(** X11.  Only a directory that cannot be created ends a batch: on a
    machine where [os.MkdirAll] does not fail, the loop over the records
    returns whatever the commands do (failed clones, resets and pulls are
    given up after their attempts and the loop goes on), and it looks up
    the directory of every record once, in the order of the listing,
    a record listed twice being reconciled twice. *)
Theorem batch_survives_command_failures rootDir repos p :
  (forall w wd path perm, snd (os_MkdirAll w wd path perm) = None) ->
  out (for_each repos (syncRepo rootDir) p) = Returns tt /\
  Calls.stats (events (for_each repos (syncRepo rootDir) p))
    = map (localDir rootDir) repos.
Proof.
  intros Hmk. destruct (for_each_returns rootDir repos Hmk p) as (Ho & Hs & _).
  split; assumption.
Qed.

(** X12.  [syncRepos] reconciles nothing before it has the whole listing:
    when the fetch does not return (it ends in [lg.Fatalf], in a panic, or
    never ends), [syncRepos] does not return either and has made no call to
    the file system and run no command, also for the records of the pages
    that were fetched. *)
Theorem syncRepos_needs_whole_listing fuel rootDir api_uri p :
  (forall repos, out (fetchApiContent cfg fuel api_uri p) <> Returns repos) ->
  Calls.local (events (syncRepos cfg fuel rootDir api_uri p)) = [] /\
  out (syncRepos cfg fuel rootDir api_uri p) <> Returns tt.
Proof.
  intros Hfail. unfold syncRepos, lg_Printf. rewrite bind_emit.
  cbn [after out events Calls.local]. unfold bind at 1 3.
  destruct (fetchLoop_paced fuel api_uri (github_api ++ api_uri) [] p) as (_ & _ & Hl).
  fold (fetchApiContent cfg fuel api_uri) in Hl. cbn zeta in Hl.
  destruct (out (fetchApiContent cfg fuel api_uri p)) as [repos| f | e |] eqn:Ho;
    cbn [out events].
  - now elim (Hfail repos).
  - split; [exact Hl | discriminate].
  - split; [exact Hl | discriminate].
  - split; [exact Hl | discriminate].
Qed.

(** X13.  The reconciler does not come back from a directory it entered,
    and does not check that it entered it: when [os.Stat] succeeds, reset
    and pull are run in the directory [os.Chdir] left the process in (the
    former one when [os.Chdir] failed) and the pass ends there; when
    [os.Stat] fails, the pass leaves the working directory as it was. *)
Theorem syncRepo_stays_where_chdir_left rootDir repo p :
  let dir := localDir rootDir repo in
  let st := os_Stat (world p) (cwd p) dir in
  let ch := os_Chdir (fst st) (cwd p) dir in
  let r := syncRepo rootDir repo p in
  (snd st = None ->
   let q := {| world := fst ch; cwd := snd ch |} in
   let q' := final (doExec "git" reset_args q) in
   events r = (entering dir ++ events (doExec "git" reset_args q)
                           ++ events (doExec "git" pull_args q'))%list /\
   cwd q' = snd ch /\
   cwd (final r) = snd ch) /\
  (forall e, snd st = Some e -> cwd (final r) = cwd p).
Proof.
  intros dir st ch r. subst r. split.
  - intros Hst q q'. unfold syncRepo, lg_Printf. fold dir.
    rewrite bind_emit. erewrite bind_step by apply do_stat_step.
    fold st. rewrite Hst. erewrite bind_step by apply do_chdir_step.
    cbn [world cwd]. fold ch. fold q.
    destruct (doExec_shape "git" reset_args q) as (Ho & Hc & _).
    fold q' in Hc.
    change ["reset"; "--hard"] with reset_args.
    change ["pull"; "--rebase"] with pull_args.
    rewrite (bind_returns (doExec "git" reset_args) _ q Ho). fold q'.
    destruct (doExec_shape "git" pull_args q') as (_ & Hc' & _).
    cbn [after out final events app entering].
    split; [reflexivity|]. split; [exact Hc|]. now rewrite Hc', Hc.
  - intros e Hst. unfold syncRepo, lg_Printf. fold dir.
    rewrite bind_emit. erewrite bind_step by apply do_stat_step.
    fold st. rewrite Hst. rewrite bind_emit.
    erewrite bind_step by apply do_mkdirall_step.
    cbn [world cwd after final].
    destruct (snd (os_MkdirAll (fst st) (cwd p) dir perm_0700)) as [e'|].
    + reflexivity.
    + rewrite bind_emit. cbn [after final].
      match goal with |- context [doExec ?n ?a ?q0] =>
        destruct (doExec_shape n a q0) as (_ & Hc & _) end.
      exact Hc.
Qed.

(** X14.  Fetch and reconciliation together: when the server answers the
    walk with N >= 1 pages, the next link first on each but the last, and no
    directory creation fails, [syncRepos] returns after N requests, all
    made before the first call to the file system, and has looked up the
    directory of every record of every page, in page order and in the order
    of each page. *)
Theorem syncRepos_reconciles_whole_listing fuel rootDir api_uri p pages :
  pages <> [] ->
  List.length pages <= fuel ->
  serves cfg (world p) (github_api ++ api_uri) pages ->
  (forall w wd path perm, snd (os_MkdirAll w wd path perm) = None) ->
  let r := syncRepos cfg fuel rootDir api_uri p in
  out r = Returns tt /\
  List.length (Trace.requests (events r)) = List.length pages /\
  Calls.stats (events r) = map (localDir rootDir) (concat (map records pages)) /\
  exists fetched reconciled,
    events r = (fetched ++ reconciled)%list /\
    Calls.local fetched = [] /\ Trace.requests reconciled = [].
Proof.
  intros Hne Hfuel Hs Hmk r. subst r.
  destruct (@fetchLoop_serves api_uri pages (github_api ++ api_uri) [] p fuel Hne Hfuel Hs)
    as [Ho Hw].
  fold (fetchApiContent cfg fuel api_uri) in Ho, Hw. cbn [app] in Ho.
  destruct (fetchLoop_paced fuel api_uri (github_api ++ api_uri) [] p) as (_ & _ & Hl).
  fold (fetchApiContent cfg fuel api_uri) in Hl. cbn zeta in Hl.
  assert (Hf : fetchLoop cfg fuel api_uri (github_api ++ api_uri) [] p
               = fetchApiContent cfg fuel api_uri p) by reflexivity.
  unfold syncRepos, lg_Printf. rewrite bind_emit.
  rewrite (bind_returns (fetchApiContent cfg fuel api_uri) _ p Ho).
  rewrite bind_emit. cbn [after out events].
  set (q := final (fetchApiContent cfg fuel api_uri p)).
  destruct (for_each_returns rootDir (concat (map records pages)) Hmk q)
    as (Ho' & Hs' & Hr').
  split; [exact Ho'|]. split; [|split].
  - cbn [Trace.requests]. rewrite requests_app. cbn [Trace.requests].
    rewrite Hr', app_nil_r, <- requests_wire, Hw. apply requests_walk.
  - cbn [Calls.stats]. rewrite stats_app. cbn [Calls.stats]. rewrite Hs'.
    assert (Hnone : Calls.stats (events (fetchApiContent cfg fuel api_uri p)) = []).
    { clear - Hl. induction (events (fetchApiContent cfg fuel api_uri p)) as [|e t IH];
        [reflexivity|]. destruct e; cbn in Hl |- *; try discriminate; now apply IH. }
    now rewrite Hnone.
  - exists (Log "sync repos.... rootDir:%s, api_uri: %s"
              :: events (fetchApiContent cfg fuel api_uri p)).
    exists (Log "api_uri: %s, repo count: %v"
              :: events (for_each (concat (map records pages)) (syncRepo rootDir) q)).
    split; [reflexivity|]. split; [exact Hl | exact Hr'].
Qed.

(** *** [main] *)

Lemma bind_ret_l {A B} (a : A) (k : A -> M W B) p : bind (ret a) k p = k a p.
Proof. unfold bind, ret. cbn. destruct (k a p). reflexivity. Qed.

Lemma bind_assoc {A B C} (m : M W A) (k : A -> M W B) (k' : B -> M W C) p :
  bind (bind m k) k' p = bind m (fun x => bind (k x) k') p.
Proof.
  unfold bind. destruct (out (m p)); cbn; try reflexivity.
  destruct (out (k a (final (m p)))); cbn; try reflexivity.
  now rewrite !app_assoc.
Qed.



(** [mirror] up to the first listing, by what [os.Stat] says of the
    root. *)
Lemma mirror_root fuel p :
  let root := RepoRootDir cfg in
  let st := os_Stat (world p) (cwd p) root in
  let mk := os_MkdirAll (fst st) (cwd p) root perm_0700 in
  let start := Log "mirror mygithub start work, config(user: %v, repo_root_dir: %v)" in
  let rest q :=
    (do_chdir root ;;;
     syncRepos cfg fuel (root ++ "/users") user_repos_uri ;;;
     syncRepos cfg fuel (root ++ "/starred") starred_uri ;;;
     lg_Printf "finished" ;;;
     ret Finished) q in
  mirror cfg fuel p =
    after start p
      (after (Stat root) {| world := fst st; cwd := cwd p |}
         (match snd st with
          | Some ErrNotExist =>
              after (Log "repos dir not exist, try create: %v")
                {| world := fst st; cwd := cwd p |}
                (after (MkdirAll root perm_0700) {| world := fst mk; cwd := cwd p |}
                   (match snd mk with
                    | Some _ =>
                        lg_Fatal "create repos dir fail, %v"
                                 {| world := fst mk; cwd := cwd p |}
                    | None => rest {| world := fst mk; cwd := cwd p |}
                    end))
          | _ => rest {| world := fst st; cwd := cwd p |}
          end)).
Proof.
  intros root st mk start rest. subst rest start.
  unfold mirror, lg_Printf. fold root.
  rewrite bind_emit. f_equal.
  erewrite bind_step by apply do_stat_step. fold st. f_equal.
  destruct (snd st) as [[| |msg]|]; try (rewrite bind_ret_l; reflexivity).
  rewrite bind_assoc, bind_emit. f_equal.
  rewrite bind_assoc. erewrite bind_step by apply do_mkdirall_step.
  cbn [world cwd]. fold mk. f_equal.
  destruct (snd mk) as [e|]; [reflexivity | rewrite bind_ret_l; reflexivity].
Qed.

(** X16.  The root directory: [main] creates it, with the permission bits
    0700, only when [os.Stat] says that it does not exist, and ends in
    [lg.Fatal] before anything else when the creation fails (no
    [os.Chdir], no request); when [os.Stat] succeeds or fails for another
    reason, [main] creates nothing and goes on to [os.Chdir] (where
    [syncRepos] creates a repository directory on any error of
    [os.Stat]). *)
Theorem mirror_creates_missing_root_only fuel p :
  let root := RepoRootDir cfg in
  let st := os_Stat (world p) (cwd p) root in
  let mk := os_MkdirAll (fst st) (cwd p) root perm_0700 in
  let start := Log "mirror mygithub start work, config(user: %v, repo_root_dir: %v)" in
  let r := mirror cfg fuel p in
  (snd st = Some ErrNotExist ->
   (snd mk <> None ->
    out r = Fatal "create repos dir fail, %v" /\
    events r = [start; Stat root; Log "repos dir not exist, try create: %v";
                MkdirAll root perm_0700; Log "create repos dir fail, %v"]) /\
   (snd mk = None ->
    exists t, events r = start :: Stat root :: Log "repos dir not exist, try create: %v"
                           :: MkdirAll root perm_0700 :: Chdir root :: t)) /\
  (snd st <> Some ErrNotExist ->
   exists t, events r = start :: Stat root :: Chdir root :: t).
Proof.
  intros root st mk start r. subst r. rewrite mirror_root.
  fold root. fold st. fold mk. fold start. split.
  - intros Hst. rewrite Hst. split.
    + intros Hmk. destruct (snd mk) as [e|]; [|now elim Hmk]. split; reflexivity.
    + intros Hmk. rewrite Hmk. erewrite bind_step by apply do_chdir_step.
      eexists. reflexivity.
  - intros Hst.
    destruct (snd st) as [[| |msg]|]; try (now elim Hst);
      erewrite bind_step by apply do_chdir_step; eexists; reflexivity.
Qed.

Lemma bind_fatal {A B} (m : M W A) (k : A -> M W B) p format :
  out (m p) = Fatal format ->
  bind m k p =
    {| out := Fatal format; final := final (m p);
       events := events (m p); states := states (m p) |}.
Proof. intros E. unfold bind. rewrite E. reflexivity. Qed.

(** [syncRepos] on a listing whose first request is refused. *)
Lemma syncRepos_refused fuel rootDir api_uri q :
  http_NewRequest (github_api ++ api_uri) = None ->
  refused (snd (client_Do (world q) (github_api ++ api_uri) (User cfg) (Token cfg))) ->
  exists format,
    out (syncRepos cfg (S fuel) rootDir api_uri q) = Fatal format /\
    events (syncRepos cfg (S fuel) rootDir api_uri q)
      = [Log "sync repos.... rootDir:%s, api_uri: %s";
         Log "fetch api: %s";
         HttpGet (github_api ++ api_uri) (User cfg) (Token cfg);
         Log format].
Proof.
  intros Hreq Href.
  destruct (@fetchLoop_refused fuel api_uri (github_api ++ api_uri) [] q Hreq Href)
    as (f & Ho & Hev).
  exists f. unfold syncRepos, lg_Printf. rewrite bind_emit.
  unfold fetchApiContent.
  rewrite (bind_fatal (fetchLoop cfg (S fuel) api_uri (github_api ++ api_uri) []) _ q Ho).
  cbn [after out events]. rewrite Hev. split; reflexivity.
Qed.

(** X17.  The owned repositories come first and a listing error there ends
    the run: when the root is there and the transport refuses the request
    for the owned listing, [main] ends in [lg.Fatalf] after that one
    request; the starred listing is never requested and nothing below the
    root is looked up, created or run. *)
Theorem mirror_stops_at_owned_listing_error fuel p :
  snd (os_Stat (world p) (cwd p) (RepoRootDir cfg)) = None ->
  http_NewRequest (github_api ++ user_repos_uri) = None ->
  (forall w, refused (snd (client_Do w (github_api ++ user_repos_uri)
                                     (User cfg) (Token cfg)))) ->
  let r := mirror cfg (S fuel) p in
  is_fatal (out r) /\
  Trace.requests (events r) = [github_api ++ user_repos_uri] /\
  Calls.local (events r) = [Stat (RepoRootDir cfg); Chdir (RepoRootDir cfg)].
Proof.
  intros Hst Hreq Href r. subst r. rewrite mirror_root. rewrite Hst.
  erewrite bind_step by apply do_chdir_step.
  match goal with |- context [bind (syncRepos cfg (S fuel) ?root ?u) ?k ?q] =>
    destruct (@syncRepos_refused fuel root u q Hreq (Href (world q)))
      as (f & Ho & Hev);
    rewrite (bind_fatal (syncRepos cfg (S fuel) root u) k q Ho)
  end.
  cbn [after out events]. rewrite Hev. repeat split.
Qed.

(** *** The two tests on strings *)

Lemma prefix_iff (sub s : string) :
  String.prefix sub s = true <-> exists b, s = sub ++ b.
Proof.
  revert s. induction sub as [|x sub IH]; intros s.
  - split; [intros _; exists s; reflexivity | intros _; now destruct s].
  - destruct s as [|y s]; cbn.
    + split; [discriminate | intros [b Hb]; discriminate].
    + destruct (ascii_dec x y) as [->|N].
      * rewrite IH. split; intros [b Hb]; exists b; [now rewrite Hb | now injection Hb].
      * split; [discriminate | intros [b Hb]; injection Hb; intros _ E; now elim N].
Qed.

(** X18.  The takedown test of [doExec] and the next test of the fetcher
    are plain substring tests, byte for byte: [strings.Contains(s, m)]
    holds exactly when [s] is some bytes, then [m], then some bytes. *)
Theorem Contains_iff (s m : string) :
  Strings.Contains s m = true <-> exists a b, s = a ++ m ++ b.
Proof.
  induction s as [|x s IH].
  - cbn [Strings.Contains]. rewrite prefix_iff. split.
    + intros [b Hb]. exists EmptyString, b. exact Hb.
    + intros (a & b & Hab). destruct a; [now exists b | discriminate].
  - cbn [Strings.Contains]. rewrite orb_true_iff, prefix_iff, IH. split.
    + intros [[b Hb] | (a & b & Hab)].
      * exists EmptyString, b. exact Hb.
      * exists (String x a), b. cbn. now rewrite Hab.
    + intros (a & b & Hab). destruct a as [|y a].
      * left. exists b. exact Hab.
      * right. exists a, b. cbn in Hab. now injection Hab.
Qed.

Lemma split_from_joins (sep : ascii) (s : string) :
  forall cur,
    free_of sep cur = true ->
    String.concat (String sep EmptyString)
                  (Strings.split_from (String sep EmptyString) s 0 cur)
      = cur ++ s /\
    Forall (fun piece => free_of sep piece = true)
           (Strings.split_from (String sep EmptyString) s 0 cur) /\
    Strings.split_from (String sep EmptyString) s 0 cur <> [].
Proof.
  induction s as [|x s IH]; intros cur Hcur.
  - cbn. rewrite append_nil_r. repeat split; [now constructor | discriminate].
  - cbn [Strings.split_from]. rewrite prefix_one.
    destruct (Ascii.eqb sep x) eqn:E.
    + apply Ascii.eqb_eq in E. subst x. cbn [String.length Nat.sub].
      destruct (IH EmptyString eq_refl) as (Hj & Hf & Hne).
      destruct (Strings.split_from (String sep EmptyString) s 0 EmptyString)
        as [|piece pieces] eqn:Hs; [now elim Hne|].
      split; [|split; [now constructor | discriminate]].
      change (String.concat (String sep EmptyString) (cur :: piece :: pieces))
        with (cur ++ String sep EmptyString
                  ++ String.concat (String sep EmptyString) (piece :: pieces)).
      rewrite Hj. reflexivity.
    + assert (Hcur' : free_of sep (cur ++ String x EmptyString) = true).
      { rewrite free_of_app, Hcur. cbn. now rewrite E. }
      destruct (IH _ Hcur') as (Hj & Hf & Hne).
      split; [|split; assumption].
      rewrite Hj, append_assoc. reflexivity.
Qed.

(** X19.  Cutting a header at commas or at semicolons loses nothing:
    the pieces of [strings.Split(s, sep)], for a one-byte separator, joined
    again with the separator are [s]; there is at least one piece (so
    taking the first never fails) and no piece holds the separator. *)
Theorem Split_joins (sep : ascii) (s : string) :
  String.concat (String sep EmptyString) (Strings.Split s (String sep EmptyString)) = s /\
  Forall (fun piece => free_of sep piece = true)
         (Strings.Split s (String sep EmptyString)) /\
  Strings.Split s (String sep EmptyString) <> [].
Proof. exact (split_from_joins sep s EmptyString eq_refl). Qed.

End Properties.

(** ** The theorems at work *)

(** The witness of C3: a [git pull] that fails with status 128 at every
    attempt, the network being down. *)
Lemma doExec_retries_transient_witness :
  let r := doExec (H := Inputs.runs_end Inputs.network_down)
                  "git" ["pull"; "--rebase"] Inputs.start in
  out r = Returns tt /\
  events r = retry_rounds 20 "git" ["pull"; "--rebase"] /\
  Trace.runs (events r) = repeat ("git", ["pull"; "--rebase"]) 20 /\
  Trace.sleeps (events r) = repeat (200 * Millisecond)%Z 20.
Proof.
  destruct (doExec_retries_transient (H := Inputs.runs_end Inputs.network_down)
              "git" ["pull"; "--rebase"] Inputs.start) as (Hout & _ & Hused_up).
  - intros w wd. right. reflexivity.
  - split; [exact Hout|]. apply Hused_up. intros w wd. discriminate.
Defined.

(** The marker is matched byte for byte: the same message in lower case is
    a transient failure like any other. *)
Example lower_case_marker_is_transient :
  transient (Sim.failed 128 "fatal: repository unavailable due to dmca takedown.") = true.
Proof. reflexivity. Qed.

(** The witness of C4: a clone whose standard error carries the marker, at
    the first attempt. *)
Lemma doExec_takedown_stops_witness :
  let sys := Inputs.runs_end Inputs.taken_down in
  let arg := ["clone"; "git@host:alice/proj1.git"; Inputs.proj1_dir] in
  out (doExec_loop (H := sys) 20 "git" arg Inputs.start) = Returns tt /\
  events (doExec_loop (H := sys) 20 "git" arg Inputs.start) = [Run "git" arg] /\
  out (doExec (H := sys) "git" arg Inputs.start) = Returns tt /\
  events (doExec (H := sys) "git" arg Inputs.start) = [Run "git" arg].
Proof.
  apply (doExec_takedown_stops (H := Inputs.runs_end Inputs.taken_down) 19).
  reflexivity.
Defined.

(** The witness of C5: a pull that exits with status 1, at the last
    attempt and at the first. *)
Lemma doExec_exit_1_stops_witness :
  let sys := Inputs.runs_end Inputs.nothing_to_do in
  let arg := ["pull"; "--rebase"] in
  out (doExec_loop (H := sys) 1 "git" arg Inputs.start) = Returns tt /\
  events (doExec_loop (H := sys) 1 "git" arg Inputs.start) = [Run "git" arg] /\
  out (doExec (H := sys) "git" arg Inputs.start) = Returns tt /\
  events (doExec (H := sys) "git" arg Inputs.start) = [Run "git" arg].
Proof.
  apply (doExec_exit_1_stops (H := Inputs.runs_end Inputs.nothing_to_do) 0).
  reflexivity.
Defined.

(** The witness of C2: [alice/proj1] on an empty disk, on a disk where it
    is cloned, and on a machine where its directory is there and closed
    to the process: there the reset and the pull are run from the
    directory the process was in. *)
Lemma syncRepo_clone_or_update_witness :
  let dir := Inputs.proj1_dir in
  let fresh := syncRepo (H := Inputs.disk) Inputs.users Inputs.alice_proj1
                        (Inputs.on Inputs.empty_disk) in
  let again := syncRepo (H := Inputs.disk) Inputs.users Inputs.alice_proj1
                        (Inputs.on Inputs.mirrored) in
  let shut := syncRepo (H := Cases.closed_directory) Inputs.users Inputs.alice_proj1
                       Inputs.start in
  let created := {| world := {| Sim.dirs := [dir]; Sim.clones := [] |};
                    cwd := "/data/mirror" |} in
  let q := {| world := Inputs.mirrored; cwd := dir |} in
  let q' := final (doExec (H := Inputs.disk) "git" reset_args q) in
  let s' := final (doExec (H := Cases.closed_directory) "git" reset_args Inputs.start) in
  (out fresh = Returns tt /\
   events fresh
     = (creation dir
          ++ events (doExec (H := Inputs.disk) "git"
                            (clone_args Inputs.alice_proj1 dir) created))%list /\
   cwd (final fresh) = "/data/mirror" /\
   exists k, 1 <= k <= 20 /\
     Trace.ops (events fresh)
       = Stat dir :: MkdirAll dir perm_0700
           :: repeat (git_clone Inputs.alice_proj1 dir) k) /\
  (out again = Returns tt /\
   events again
     = (entering dir ++ events (doExec (H := Inputs.disk) "git" reset_args q)
                     ++ events (doExec (H := Inputs.disk) "git" pull_args q'))%list /\
   cwd q' = dir /\
   cwd (final again) = dir /\
   (cwd q = dir /\ cwd q' = dir /\ enters dir again) /\
   exists k m, 1 <= k <= 20 /\ 1 <= m <= 20 /\
     Trace.ops (events again)
       = (Stat dir :: Chdir dir :: repeat git_reset k ++ repeat git_pull m)%list) /\
  (out shut = Returns tt /\
   events shut
     = (entering dir
          ++ events (doExec (H := Cases.closed_directory) "git" reset_args Inputs.start)
          ++ events (doExec (H := Cases.closed_directory) "git" pull_args s'))%list /\
   cwd s' = "/data/mirror" /\
   cwd (final shut) = "/data/mirror").
Proof.
  split; [|split].
  - destruct (syncRepo_clone_or_update (H := Inputs.disk) Inputs.users
                Inputs.alice_proj1 (Inputs.on Inputs.empty_disk)) as [Hclone _].
    destruct (Hclone eq_refl) as [_ Hcreated]. exact (Hcreated eq_refl).
  - destruct (syncRepo_clone_or_update (H := Inputs.disk) Inputs.users
                Inputs.alice_proj1 (Inputs.on Inputs.mirrored)) as [_ Hupdate].
    destruct (Hupdate eq_refl) as (Ho & Hev & Hq' & Hend & Hin & Hops).
    split; [exact Ho|]. split; [exact Hev|]. split; [exact Hq'|].
    split; [exact Hend|]. split; [exact (Hin eq_refl) | exact Hops].
  - destruct (syncRepo_clone_or_update (H := Cases.closed_directory) Inputs.users
                Inputs.alice_proj1 Inputs.start) as [_ Hupdate].
    destruct (Hupdate eq_refl) as (Ho & Hev & Hq' & Hend & _).
    split; [exact Ho|]. split; [exact Hev|]. split; [exact Hq' | exact Hend].
Defined.

(** C2 at the failing input: a directory that is there and that the
    process may not enter.  [os.Stat] succeeds, the pass calls [os.Chdir],
    drops its error, and runs the reset and the pull from the directory it
    was in: at no point of the pass is the process in the directory of the
    repository. *)
Lemma closed_directory_is_not_entered :
  let dir := localDir Inputs.users Inputs.alice_proj1 in
  let r := syncRepo (H := Cases.closed_directory) Inputs.users Inputs.alice_proj1
                    Inputs.start in
  snd (os_Stat (System := Cases.closed_directory) (world Inputs.start)
               (cwd Inputs.start) dir) = None /\
  out r = Returns tt /\
  Trace.ops (events r) = [Stat dir; Chdir dir; git_reset; git_pull] /\
  ~ enters dir r.
Proof.
  split; [reflexivity|]. split; [reflexivity|]. split; [reflexivity|].
  intros [q [Hin Hcwd]]. vm_compute in Hin.
  repeat (destruct Hin as [<- | Hin]; [vm_compute in Hcwd; discriminate Hcwd|]).
  exact Hin.
Qed.

(** The witness of C10: [os.Stat] refused for lack of permission. *)
Lemma syncRepo_any_stat_error_clones_witness :
  let dir := Inputs.proj1_dir in
  let r := syncRepo (H := Inputs.locked) Inputs.users Inputs.alice_proj1 Inputs.start in
  out r = Returns tt /\
  (exists q,
     events r
       = (creation dir
            ++ events (doExec (H := Inputs.locked) "git"
                              (clone_args Inputs.alice_proj1 dir) q))%list) /\
  exists k, 1 <= k <= 20 /\
    Trace.ops (events r)
      = Stat dir :: MkdirAll dir perm_0700 :: repeat (git_clone Inputs.alice_proj1 dir) k.
Proof.
  assert (Hperm : ErrPermission <> ErrNotExist) by discriminate.
  destruct (syncRepo_any_stat_error_clones (H := Inputs.locked) Inputs.users
              Inputs.alice_proj1 Inputs.start Hperm eq_refl) as [_ Hcreated].
  exact (Hcreated eq_refl).
Defined.


(** Outside the hypothesis of C9: a directory that exists and holds no
    working copy (a pass was stopped between [os.MkdirAll] and the end of the
    clone).  The pass runs reset and pull, 20 failed attempts each, and
    leaves the directory without a working copy: nothing clones it. *)
Example stale_directory_is_not_cloned :
  let stale := {| Sim.dirs := [Inputs.proj1_dir]; Sim.clones := [] |} in
  let r := syncRepo (H := Inputs.disk) Inputs.users Inputs.alice_proj1 (Inputs.on stale) in
  out r = Returns tt /\
  Trace.runs (events r)
    = (repeat ("git", ["reset"; "--hard"]) 20 ++ repeat ("git", ["pull"; "--rebase"]) 20)%list /\
  world (final r) = stale.
Proof. vm_compute. repeat split. Qed.


(** The witness of C1's theorem: the listing of an account whose
    repositories fit in one page. *)
Lemma fetch_without_link_header_panics_witness :
  let r := fetchApiContent (H := Inputs.single_page_server) Inputs.alice 1
                           user_repos_uri Inputs.start in
  out r = Panics PanicSliceBounds /\
  events r = [Log "fetch api: %s"; HttpGet Inputs.url1 "alice" "t"].
Proof.
  apply (fetch_without_link_header_panics (H := Inputs.single_page_server)
           Inputs.alice user_repos_uri Inputs.start
           (rsp := {| StatusCode := 200; Status := "200 OK"; Header := [];
                      Body := Some "[]" |}) 0);
    reflexivity.
Defined.

Lemma next_first_server_serves :
  serves (H := Inputs.next_first_server) Inputs.alice tt Inputs.url1
         Inputs.next_first_pages.
Proof.
  cbn [serves Inputs.next_first_pages].
  split; [reflexivity|]. split.
  { eexists. split; [reflexivity|].
    split; [reflexivity|]. split; [eexists; split; reflexivity|].
    split; [split; reflexivity|]. split; [split; reflexivity|].
    exact (more_entries Inputs.url2 (Inputs.rel "next") Inputs.next_first_others1). }
  split; [reflexivity|].
  split; [reflexivity|]. split.
  { eexists. split; [reflexivity|].
    split; [reflexivity|]. split; [eexists; split; reflexivity|].
    split; [split; reflexivity|]. split; [split; reflexivity|].
    exact (more_entries Inputs.url3 (Inputs.rel "next") Inputs.next_first_others2). }
  split; [reflexivity|].
  split; [reflexivity|]. split.
  { eexists. split; [reflexivity|].
    split; [reflexivity|]. split; [eexists; split; reflexivity|].
    split; [split; reflexivity|]. split; [split; reflexivity|].
    exact (more_entries Inputs.url1 (Inputs.rel "first") Inputs.next_first_others3). }
  reflexivity.
Defined.

(** The witness of C6: three pages of one record each, the next link first
    in the header of the first two. *)
Lemma fetch_walks_listing_witness :
  let r := fetchApiContent (H := Inputs.next_first_server) Inputs.alice 3
                           user_repos_uri Inputs.start in
  out r = Returns [Inputs.alice_proj1; Inputs.alice_proj2; Inputs.alice_proj3] /\
  Trace.wire (events r)
    = [HttpGet Inputs.url1 "alice" "t"; Sleep (2 * Second)%Z;
       HttpGet Inputs.url2 "alice" "t"; Sleep (2 * Second)%Z;
       HttpGet Inputs.url3 "alice" "t"] /\
  List.length (Trace.requests (events r)) = 3 /\
  Trace.sleeps (events r) = [(2 * Second)%Z; (2 * Second)%Z].
Proof.
  apply (fetch_walks_listing (H := Inputs.next_first_server) Inputs.alice
           user_repos_uri Inputs.start (pages := Inputs.next_first_pages) (fuel := 3)).
  - discriminate.
  - cbn. lia.
  - exact next_first_server_serves.
Defined.

(** The counterexample of C6: three pages, the second with the link to the
    previous page before the next link.  The listing has the three pages
    [[proj1]], [[proj2]], [[proj3]]; the fetcher stops after the second. *)
Lemma fetch_stops_where_next_is_not_first :
  Spec.listing Inputs.prev_first_http (Sim.decode Inputs.bodies) 10 Inputs.url1
    = [[Inputs.alice_proj1]; [Inputs.alice_proj2]; [Inputs.alice_proj3]] /\
  ~ whole_listing_fetched
      (fetchApiContent (H := Inputs.prev_first_server) Inputs.alice 10
                       user_repos_uri Inputs.start)
      [[Inputs.alice_proj1]; [Inputs.alice_proj2]; [Inputs.alice_proj3]].
Proof.
  split; [vm_compute; reflexivity|].
  intros [Hout _]. vm_compute in Hout. discriminate Hout.
Qed.

(** The witness of C7: the first page of a server that puts the next link
    first, followed by the link to the last page. *)
Lemma fetchPage_first_entry_decides_witness :
  out (fetchPage (H := Inputs.next_first_server) Inputs.alice user_repos_uri
                 Inputs.url1 [] Inputs.start)
    = Returns (Continue Inputs.url2 [Inputs.alice_proj1]).
Proof.
  apply (fetchPage_first_entry_decides (H := Inputs.next_first_server)
           Inputs.alice user_repos_uri Inputs.url1 [] Inputs.start
           (rsp := {| StatusCode := 200; Status := "200 OK";
                      Header := [("Link", Inputs.next_first_link1)];
                      Body := Some "[proj1]" |})
           (pg := {| records := [Inputs.alice_proj1]; target := Inputs.url2;
                     relation := Inputs.rel "next" |})).
  - reflexivity.
  - reflexivity.
  - split; [reflexivity|]. split; [eexists; split; reflexivity|].
    split; [split; reflexivity|]. split; [split; reflexivity|].
    exact (more_entries Inputs.url2 (Inputs.rel "next") Inputs.next_first_others1).
Defined.

(** The counterexample of C7: the second page of a server that puts the
    link to the previous page first.  The header has an entry carrying the
    next relation, to the third page, and the fetcher ends the walk. *)
Lemma next_link_behind_prev_is_not_followed :
  Spec.next_link Inputs.prev_first_link2 = Some Inputs.url3 /\
  ~ next_followed
      (out (fetchPage (H := Inputs.prev_first_server) Inputs.alice user_repos_uri
                      Inputs.url2 [Inputs.alice_proj1] Inputs.start))
      Inputs.prev_first_link2.
Proof.
  split; [vm_compute; reflexivity|].
  unfold next_followed.
  replace (Spec.next_link Inputs.prev_first_link2) with (Some Inputs.url3)
    by (vm_compute; reflexivity).
  intros [reps Hout]. vm_compute in Hout. discriminate Hout.
Qed.

(** The witness of C8: a server that answers 204, and a server that
    answers 200 with no Link header. *)
Lemma fetchPage_fatal_iff_witness :
  let t := fetchPage (H := Inputs.no_content_server) Inputs.alice user_repos_uri
                     Inputs.url1 [] Inputs.start in
  let r := fetchLoop (H := Inputs.no_content_server) Inputs.alice 1 user_repos_uri
                     Inputs.url1 [] Inputs.start in
  let t' := fetchPage (H := Inputs.single_page_server) Inputs.alice user_repos_uri
                      Inputs.url1 [] Inputs.start in
  let r' := fetchLoop (H := Inputs.single_page_server) Inputs.alice 1 user_repos_uri
                      Inputs.url1 [] Inputs.start in
  (is_fatal (out t) /\ ends_process (out t) /\
   is_fatal (out r) /\
   Trace.requests (events r) = [Inputs.url1] /\
   exists format,
     events r = [Log "fetch api: %s"; HttpGet Inputs.url1 "alice" "t"; Log format]) /\
  (~ is_fatal (out t') /\ ends_process (out t') /\
   (exists e, out t' = Panics e) /\
   (exists e, out r' = Panics e) /\
   events r' = [Log "fetch api: %s"; HttpGet Inputs.url1 "alice" "t"]).
Proof.
  split.
  - destruct (fetchPage_fatal_iff (H := Inputs.no_content_server) Inputs.alice
                user_repos_uri Inputs.url1 [] Inputs.start 0 eq_refl)
      as ([_ Hfatal] & Hloop & _ & [_ Hends]).
    assert (Href : refused (Inputs.no_content_http Inputs.url1))
      by (cbn; discriminate).
    split; [exact (Hfatal Href)|]. split; [exact (Hends (or_introl Href))|].
    exact (Hloop Href).
  - destruct (fetchPage_fatal_iff (H := Inputs.single_page_server) Inputs.alice
                user_repos_uri Inputs.url1 [] Inputs.start 0 eq_refl)
      as ([Hfatal _] & _ & H200 & [_ Hends]).
    assert (Hbare : ~ parsable (H := Inputs.single_page_server)
                      {| StatusCode := 200; Status := "200 OK"; Header := [];
                         Body := Some "[]" |}).
    { intros [(l0 & l1 & l & E & _) _]. vm_compute in E. discriminate E. }
    destruct (H200 _ eq_refl eq_refl) as (_ & [Hpanics _] & Hwalk & _).
    split; [intros Hf; apply Hfatal in Hf; now apply Hf|].
    split; [apply Hends; right; eexists; split; [reflexivity | exact Hbare]|].
    split; [exact (Hpanics Hbare) | exact (Hwalk Hbare)].
Defined.

(** The counterexample of C8: the status 204 is in the 2xx range and the
    turn ends in [lg.Fatalf]; and the status 200 with no Link header is
    accepted by the test of the status and the turn ends the process all
    the same, in a panic. *)
Lemma status_204_is_fatal :
  is_2xx 204 /\
  ~ fatal_iff_not_2xx
      (out (fetchPage (H := Inputs.no_content_server) Inputs.alice user_repos_uri
                      Inputs.url1 [] Inputs.start))
      (Inputs.no_content_http Inputs.url1) /\
  is_2xx 200 /\
  ~ ends_iff_not_2xx
      (out (fetchPage (H := Inputs.single_page_server) Inputs.alice user_repos_uri
                      Inputs.url1 [] Inputs.start))
      (Inputs.single_page_http Inputs.url1).
Proof.
  assert (H204 : is_2xx 204) by (unfold is_2xx; lia).
  assert (H200 : is_2xx 200) by (unfold is_2xx; lia).
  split; [exact H204|]. split; [|split; [exact H200|]].
  - unfold fatal_iff_not_2xx. intros [Hfatal _].
    apply Hfatal; [vm_compute; exact I | exact H204].
  - unfold ends_iff_not_2xx. intros [Hends _].
    apply Hends; [vm_compute; exact I | exact H200].
Qed.

(** ** The further theorems at work *)

(** The witness of X2: a pull that fails twice and then succeeds. *)
Lemma doExec_stops_at_first_settled_witness :
  let r := doExec (H := Cases.flaky 2) "git" pull_args {| world := 0; cwd := "/data/mirror" |} in
  out r = Returns tt /\
  events r = (retry_rounds 2 "git" pull_args ++ [Run "git" pull_args])%list /\
  List.length (Trace.runs (events r)) = 3.
Proof.
  apply (doExec_stops_at_first_settled (H := Cases.flaky 2) "git" pull_args
           {| world := 0; cwd := "/data/mirror" |} (k := 2)).
  - lia.
  - cbn. repeat split.
Defined.

(** The witness of X4: the marker cut between two writes. *)
Lemma classification_ignores_chunking_witness :
  captured_stderr Cases.in_one_piece = all_bytes (stderr_writes Cases.in_one_piece) /\
  captured_stderr Cases.cut_in_two = captured_stderr Cases.in_one_piece /\
  transient Cases.cut_in_two = transient Cases.in_one_piece.
Proof.
  apply (classification_ignores_chunking Cases.in_one_piece Cases.cut_in_two);
    reflexivity.
Defined.

Ltac carry_page others :=
  eexists; split; [reflexivity|];
  split; [reflexivity|]; split; [eexists; split; reflexivity|];
  split; [split; reflexivity|]; split; [split; reflexivity|];
  exact (more_entries _ _ others).

Lemma loop_server_loops :
  loops_on (H := Cases.loop_server) Inputs.alice Inputs.url1 Cases.loop_page.
Proof.
  split; [reflexivity|]. split; [reflexivity|]. split; [reflexivity|].
  intros w. eexists. split; [reflexivity|].
  split; [reflexivity|]. split; [eexists; split; reflexivity|].
  split; [split; reflexivity|]. split; [split; reflexivity|].
  exact (only_entry Inputs.url1 (Inputs.rel "next")).
Defined.

(** The witness of X7: a page that names itself as the next page, and
    fuel for a thousand turns. *)
Lemma fetch_follows_a_cycle_forever_witness :
  let r := fetchApiContent (H := Cases.loop_server) Inputs.alice 1000
                           user_repos_uri Inputs.start in
  out r = OutOfFuel /\ List.length (Trace.requests (events r)) = 1000.
Proof.
  exact (fetch_follows_a_cycle_forever (H := Cases.loop_server)
           (cfg := Inputs.alice) (uri := user_repos_uri) 1000 Inputs.start
           loop_server_loops).
Defined.

(** The witness of X8: a first page, then an internal error. *)
Lemma fetch_fails_whole_witness :
  let r := fetchApiContent (H := Cases.broken_server) Inputs.alice 5
                           user_repos_uri Inputs.start in
  is_fatal (out r) /\
  List.length (Trace.requests (events r)) = 2 /\
  List.length (Trace.sleeps (events r)) = 1.
Proof.
  apply (fetch_fails_whole (H := Cases.broken_server) Inputs.alice user_repos_uri
           Inputs.start
           [{| records := [Inputs.alice_proj1]; target := Inputs.url2;
               relation := Inputs.rel "next" |}]
           (fuel := 5)).
  - cbn. lia.
  - cbn [breaks_after]. split; [reflexivity|]. split.
    { carry_page Inputs.next_first_others1. }
    split; [reflexivity|]. split; [reflexivity|].
    cbn. discriminate.
Defined.

(** The witness of X9: a header that is a bare target. *)
Lemma fetch_panics_on_bare_header_witness :
  out (fetchApiContent (H := Cases.bare_server) Inputs.alice 1
                       user_repos_uri Inputs.start)
    = Panics PanicIndexRange.
Proof.
  destruct (fetch_panics_on_bare_header (H := Cases.bare_server) Inputs.alice
              user_repos_uri Inputs.start
              (rsp := {| StatusCode := 200; Status := "200 OK";
                         Header := [("Link", "<https://api.github.com/user/repos?page=2>")];
                         Body := Some "[proj1]" |}) 0)
    as [_ Hlong].
  - reflexivity.
  - reflexivity.
  - reflexivity.
  - split; reflexivity.
  - apply (Hlong ltac:(cbn; lia) "[proj1]" [Inputs.alice_proj1]); reflexivity.
Defined.

(** The witness of X10: a page of HTML where a list was expected, after a
    first record was gathered. *)
Lemma fetch_panics_on_bad_body_witness :
  out (fetchLoop (H := Cases.garbled_server) Inputs.alice 1 user_repos_uri
                 Inputs.url2 [Inputs.alice_proj1] Inputs.start)
    = Panics PanicUnmarshal.
Proof.
  destruct (fetch_panics_on_bad_body (H := Cases.garbled_server) Inputs.alice 0
              user_repos_uri Inputs.url2 [Inputs.alice_proj1] Inputs.start
              (rsp := {| StatusCode := 200; Status := "200 OK";
                         Header := [("Link", Inputs.next_first_link1)];
                         Body := Some "<html>rate limited</html>" |})
              (url := Inputs.url2) (rel := Inputs.rel "next"))
    as [_ Hdecode].
  - reflexivity.
  - reflexivity.
  - reflexivity.
  - split; reflexivity.
  - split; reflexivity.
  - exact (more_entries Inputs.url2 (Inputs.rel "next") Inputs.next_first_others1).
  - apply (Hdecode "<html>rate limited</html>"); reflexivity.
Defined.

(** The witness of X11: three records, one of them twice, on a machine
    whose every command fails. *)
Lemma batch_survives_command_failures_witness :
  let repos := [Inputs.alice_proj1; Inputs.alice_proj2; Inputs.alice_proj1] in
  let r := for_each repos
                    (syncRepo (H := Inputs.runs_end Inputs.network_down) Inputs.users)
                    Inputs.start in
  out r = Returns tt /\
  Calls.stats (events r) = map (localDir Inputs.users) repos.
Proof.
  apply (batch_survives_command_failures (H := Inputs.runs_end Inputs.network_down)).
  intros w wd path perm. reflexivity.
Defined.

(** The witness of X12: the listing that fits in one page, on which the
    fetch panics. *)
Lemma syncRepos_needs_whole_listing_witness :
  let r := syncRepos (H := Inputs.single_page_server) Inputs.alice 1 Inputs.users
                     user_repos_uri Inputs.start in
  Calls.local (events r) = [] /\ out r <> Returns tt.
Proof.
  apply (syncRepos_needs_whole_listing (H := Inputs.single_page_server)).
  intros repos. vm_compute. discriminate.
Defined.

(** The witness of X13: a path that is a file, into which the process
    cannot change: reset and pull are run from where it was. *)
Lemma syncRepo_stays_where_chdir_left_witness :
  let r := syncRepo (H := Cases.file_in_the_way) Inputs.users Inputs.alice_proj1
                    Inputs.start in
  events r = (entering Inputs.proj1_dir
                ++ events (doExec (H := Cases.file_in_the_way) "git" reset_args Inputs.start)
                ++ events (doExec (H := Cases.file_in_the_way) "git" pull_args Inputs.start))%list /\
  cwd (final r) = "/data/mirror".
Proof.
  destruct (syncRepo_stays_where_chdir_left (H := Cases.file_in_the_way)
              Inputs.users Inputs.alice_proj1 Inputs.start) as [Hstays _].
  destruct (Hstays eq_refl) as (Hev & _ & Hcwd).
  split; [exact Hev | exact Hcwd].
Defined.

Lemma mirrored_pages_serves :
  serves (H := Cases.mirrored_pages) Inputs.alice tt Inputs.url1
         Inputs.next_first_pages.
Proof.
  cbn [serves Inputs.next_first_pages].
  split; [reflexivity|]. split; [carry_page Inputs.next_first_others1|].
  split; [reflexivity|].
  split; [reflexivity|]. split; [carry_page Inputs.next_first_others2|].
  split; [reflexivity|].
  split; [reflexivity|]. split; [carry_page Inputs.next_first_others3|].
  reflexivity.
Defined.

(** The witness of X14: three pages of one record each, every directory
    there already. *)
Lemma syncRepos_reconciles_whole_listing_witness :
  let r := syncRepos (H := Cases.mirrored_pages) Inputs.alice 3 Inputs.users
                     user_repos_uri Inputs.start in
  out r = Returns tt /\
  List.length (Trace.requests (events r)) = 3 /\
  Calls.stats (events r)
    = map (localDir Inputs.users)
          [Inputs.alice_proj1; Inputs.alice_proj2; Inputs.alice_proj3] /\
  exists fetched reconciled,
    events r = (fetched ++ reconciled)%list /\
    Calls.local fetched = [] /\ Trace.requests reconciled = [].
Proof.
  apply (syncRepos_reconciles_whole_listing (H := Cases.mirrored_pages)
           Inputs.alice (fuel := 3) Inputs.users user_repos_uri Inputs.start
           (pages := Inputs.next_first_pages)).
  - discriminate.
  - cbn. lia.
  - exact mirrored_pages_serves.
  - intros w wd path perm. reflexivity.
Defined.


(** The witness of X16: a root that is not there and cannot be created. *)
Lemma mirror_creates_missing_root_only_witness :
  let r := mirror (H := Cases.read_only) Inputs.alice 5 Inputs.start in
  out r = Fatal "create repos dir fail, %v" /\
  Trace.requests (events r) = [].
Proof.
  destruct (mirror_creates_missing_root_only (H := Cases.read_only) Inputs.alice 5
              Inputs.start) as [Hmissing _].
  destruct (Hmissing eq_refl) as [Hfails _].
  destruct (Hfails ltac:(discriminate)) as [Hout Hev].
  split; [exact Hout|]. rewrite Hev. reflexivity.
Defined.

(** The witness of X17: the owned listing answered with 204. *)
Lemma mirror_stops_at_owned_listing_error_witness :
  let r := mirror (H := Cases.refusing) Inputs.alice 1 Inputs.start in
  is_fatal (out r) /\
  Trace.requests (events r) = [Inputs.url1] /\
  Calls.local (events r) = [Stat "/data/mirror"; Chdir "/data/mirror"].
Proof.
  apply (mirror_stops_at_owned_listing_error (H := Cases.refusing) Inputs.alice 0
           Inputs.start).
  - reflexivity.
  - reflexivity.
  - intros w. cbn. discriminate.
Defined.
